(** * deduplicate_utils: grouping of near-duplicate media and pair aggregation

    A shallow embedding of [deduplicate_utils.py] and the properties of its
    four functions: [build_id_lookup], [collect_groups], [write_dedup_jsonl]
    and [update_duplicate_flags].

    Conventions of the embedding.
    - A Python [dict] keeps its keys in insertion order, and several loops of
      the program iterate over dicts; a dict is therefore an association
      list without repeated keys, see [od_get] and [od_set].
    - A Python [set] of ints is a [gset Z].  The order in which a set is
      iterated is not fixed by the language, so the one place that iterates
      a set (the stack extension of the traversal) takes that order from a
      parameter [order].
    - Vector ids, file ids and clip indices are Python ints, here [Z].
      Row offsets of the range search are unsigned, here [nat].
    - Floats are only stored and copied by this program, never computed
      with; a float is carried as the rational it denotes ([Q]).
    - A [string] stands for a Python [str]. The program looks inside a
      [str] in two places only, both in library code: [line.strip()] and
      the UTF-8 encoder of [f.write]. Like [json.loads] and [json.dumps],
      they are parameters of [update_duplicate_flags], so nothing depends on
      how the characters of a [str] are laid out in a [string].
    - An exception is a value of [exn]; a function that can raise returns a
      [result]. *)

From Stdlib Require Import ZArith QArith String Ascii.
From stdpp Require Import base option list gmap sets strings pretty.

#[local] Set Warnings "-clear-no-such-hyp".

Local Open Scope string_scope.
Local Open Scope list_scope.
Local Open Scope Z_scope.

(** ** Exceptions *)

Inductive exn : Type :=
  | IndexError
  | KeyError (field : string)
  | RuntimeError
  | JSONDecodeError
  | AttributeError
  | TypeError
  | UnicodeEncodeError
  | FuelExhausted.

Inductive result (A : Type) : Type :=
  | Ok (a : A)
  | Raise (e : exn).
Arguments Ok {A} a.
Arguments Raise {A} e.

(** Sequencing: the first exception ends the computation.  The notation
    [x ← r; k] is stdpp's, for these instances. *)
#[export] Instance result_ret : MRet result := λ A a, Ok a.
#[export] Instance result_bind : MBind result := λ A B k r,
  match r with
  | Ok a => k a
  | Raise e => Raise e
  end.
#[export] Instance result_fmap : FMap result := λ A B f r,
  match r with
  | Ok a => Ok (f a)
  | Raise e => Raise e
  end.

(** [for x in xs: ...] over a body that can raise. *)
Fixpoint each {A B : Type} (f : A → result B) (xs : list A) : result (list B) :=
  match xs with
  | [] => Ok []
  | x :: xs' => y ← f x ; ys ← each f xs' ; Ok (y :: ys)
  end.

(** [xs[i]] on a list or array. *)
Definition index {A : Type} (xs : list A) (i : nat) : result A :=
  match xs !! i with
  | Some x => Ok x
  | None => Raise IndexError
  end.

(** ** Insertion-ordered dictionaries *)

Section odict.
Context {K V : Type} `{EqDecision K}.

(** [d.get(k)], and [k in d] when it is [Some]. *)
Fixpoint od_get (d : list (K * V)) (k : K) : option V :=
  match d with
  | [] => None
  | (k', v) :: d' => if decide (k = k') then Some v else od_get d' k
  end.

(** [d[k] = v]: an existing key keeps its place, a new one goes last. *)
Fixpoint od_set (d : list (K * V)) (k : K) (v : V) : list (K * V) :=
  match d with
  | [] => [(k, v)]
  | (k', v') :: d' =>
      if decide (k = k') then (k', v) :: d' else (k', v') :: od_set d' k v
  end.

Definition od_keys (d : list (K * V)) : list K := d.*1.
Definition od_values (d : list (K * V)) : list V := d.*2.
End odict.

(** [d[k].append(x)] on a [defaultdict(list)]. *)
Definition od_append {K A : Type} `{EqDecision K}
    (d : list (K * list A)) (k : K) (x : A) : list (K * list A) :=
  od_set d k (default [] (od_get d k) ++ [x]).

(** [d[k].add(x)] on a [defaultdict(set)]. *)
Definition od_add {K : Type} `{EqDecision K}
    (d : list (K * gset Z)) (k : K) (x : Z) : list (K * gset Z) :=
  od_set d k (default ∅ (od_get d k) ∪ {[x]}).

(** ** Data model *)

(** A clip of a video entry of the metadata database.  A field is [None]
    when the key is absent or null, which [clip.get] does not tell apart. *)
Record Clip := {
  c_clip_idx : option Z;
  c_start_s : option Q;
  c_end_s : option Q;
  c_faiss_id : option Z;
}.

(** The [quality] and [metadata] sub-dicts of an entry. *)
Record Quality := { q_variance : option Q }.
Record Metadata := { m_quality : option Quality }.

(** An entry of the database; every key may be absent. *)
Record MediaEntry := {
  e_media_type : option string;
  e_file_id : option Z;
  e_file_name : option string;
  e_prefix : option string;
  e_duration : option Q;
  e_quality : option Quality;
  e_metadata : option Metadata;
  e_clips : option (list Clip);
  e_faiss_id : option Z;
}.

(** A value of the lookup table. *)
Record LookupRecord := {
  file_id : Z;
  file_name : string;
  clip_idx : option Z;
  faiss_id : Z;
  media_type : string;
  prefix : string;
  duration : Q;
  variance : Q;
  start_s : option Q;
  end_s : option Q;
}.

(** One side of a clip pair, and a clip pair. *)
Record ClipSide := {
  cs_file_id : Z;
  cs_file_name : string;
  cs_media_type : string;
  cs_clip_idx : option Z;
  cs_start_s : option Q;
  cs_end_s : option Q;
}.

Record ClipPair := { original : ClipSide; duplicate : ClipSide }.

(** One line of the output. *)
Record DuplicatePairRecord := {
  original_file_id : Z;
  original_file_name : string;
  original_duration : Q;
  duplicate_file_id : Z;
  duplicate_file_name : string;
  duplicate_duration : Q;
  clips : list ClipPair;
}.

(** ** Step 1: [build_id_lookup] *)

(** [entry[field]] on a key that may be absent. *)
Definition subscript {A : Type} (field : string) (v : option A) : result A :=
  match v with
  | Some a => Ok a
  | None => Raise (KeyError field)
  end.

(** The dict literal of the video branch; its items are evaluated in
    order, so a missing [file_id] is reported before a missing
    [file_name]. *)
Definition video_record (entry : MediaEntry) (clip : Clip) (fid : Z)
    : result LookupRecord :=
  fi ← subscript "file_id" (e_file_id entry) ;
  fn ← subscript "file_name" (e_file_name entry) ;
  Ok {| file_id := fi;
        file_name := fn;
        clip_idx := c_clip_idx clip;
        faiss_id := fid;
        media_type := "video";
        prefix := default "" (e_prefix entry);
        duration := default 0%Q (e_duration entry);
        variance := default 0%Q (q_variance (default {| q_variance := None |} (e_quality entry)));
        start_s := c_start_s clip;
        end_s := c_end_s clip |}.

(** The dict literal of the image branch. *)
Definition image_record (entry : MediaEntry) (fid : Z) : result LookupRecord :=
  fi ← subscript "file_id" (e_file_id entry) ;
  fn ← subscript "file_name" (e_file_name entry) ;
  Ok {| file_id := fi;
        file_name := fn;
        clip_idx := None;
        faiss_id := fid;
        media_type := "image";
        prefix := default "" (e_prefix entry);
        duration := 0%Q;
        variance :=
          default 0%Q
            (q_variance
               (default {| q_variance := None |}
                  (m_quality (default {| m_quality := None |} (e_metadata entry)))));
        start_s := None;
        end_s := None |}.

(** The loop [for clip in entry.get("clips", [])]. *)
Fixpoint add_clips (entry : MediaEntry) (clips : list Clip)
    (lookup : list (Z * LookupRecord)) : result (list (Z * LookupRecord)) :=
  match clips with
  | [] => Ok lookup
  | clip :: clips' =>
      match c_faiss_id clip with
      | None => add_clips entry clips' lookup
      | Some fid =>
          r ← video_record entry clip fid ;
          add_clips entry clips' (od_set lookup fid r)
      end
  end.

(** One turn of the loop [for entry in database]. *)
Definition add_entry (entry : MediaEntry) (lookup : list (Z * LookupRecord))
    : result (list (Z * LookupRecord)) :=
  if decide (e_media_type entry = Some "video") then
    add_clips entry (default [] (e_clips entry)) lookup
  else if decide (e_media_type entry = Some "image") then
    match e_faiss_id entry with
    | None => Ok lookup
    | Some fid => r ← image_record entry fid ; Ok (od_set lookup fid r)
    end
  else Ok lookup.

Fixpoint add_entries (database : list MediaEntry)
    (lookup : list (Z * LookupRecord)) : result (list (Z * LookupRecord)) :=
  match database with
  | [] => Ok lookup
  | entry :: database' =>
      lookup' ← add_entry entry lookup ;
      add_entries database' lookup'
  end.

Definition build_id_lookup (database : list MediaEntry)
    : result (list (Z * LookupRecord)) :=
  add_entries database [].

(** ** Step 2: [collect_groups] *)

(** [labels[start:end]]; empty when [end <= start], clipped at the end of
    the array. *)
Definition slice {A : Type} (xs : list A) (start stop : nat) : list A :=
  take (stop - start) (drop start xs).

(** The inner loop [for j in labels[start:end]]. *)
Definition add_row (neighbors : list (Z * gset Z)) (qid : Z) (row : list Z)
    : list (Z * gset Z) :=
  foldl (λ nb jid,
           if bool_decide (jid = -1 ∨ jid = qid) then nb
           else od_add (od_add nb qid jid) jid qid)
        neighbors row.

(** The loop [for qi in range(len(embeddings))], over the list of row
    numbers still to do. *)
Fixpoint add_rows (lims : list nat) (labels : list Z) (qis : list nat)
    (neighbors : list (Z * gset Z)) : result (list (Z * gset Z)) :=
  match qis with
  | [] => Ok neighbors
  | qi :: qis' =>
      start ← index lims qi ;
      stop ← index lims (S qi) ;
      if decide (start = stop) then add_rows lims labels qis' neighbors
      else
        qid ← index labels start ;
        add_rows lims labels qis' (add_row neighbors qid (slice labels start stop))
  end.

(** The adjacency structure of [collect_groups]; [n] is [len(embeddings)],
    [lims] and [labels] are what [index.range_search] returned. *)
Definition build_neighbors (n : nat) (lims : list nat) (labels : list Z)
    : result (list (Z * gset Z)) :=
  add_rows lims labels (seq 0 n) [].

(** Enough steps for any traversal of [neighbors]: every pop of the stack
    either visits a node or discards an entry that some visit pushed. *)
Definition dfs_fuel (neighbors : list (Z * gset Z)) : nat :=
  S (sum_list (size <$> od_values neighbors)).

Section traversal.
(** [order cur visited s] is the order in which Python iterates the set
    [s = neighbors[cur] - visited]. *)
Variable order : Z → gset Z → gset Z → list Z.

(** The loop [while stack]. The stack is kept with its top first, so
    [stack.extend(xs)] puts the reverse of [xs] in front.  On a missing
    key, [neighbors[cur]] would add the key to the [defaultdict] while
    the enclosing [for] iterates it, which ends in a [RuntimeError]. *)
Fixpoint visit (fuel : nat) (neighbors : list (Z * gset Z))
    (visited : gset Z) (stack comp : list Z) : result (gset Z * list Z) :=
  match stack with
  | [] => Ok (visited, comp)
  | cur :: stack' =>
      match fuel with
      | O => Raise FuelExhausted
      | S fuel' =>
          if decide (cur ∈ visited) then
            visit fuel' neighbors visited stack' comp
          else
            match od_get neighbors cur with
            | None => Raise RuntimeError
            | Some s =>
                let visited' := visited ∪ {[cur]} in
                visit fuel' neighbors visited'
                      (reverse (order cur visited' (s ∖ visited')) ++ stack')
                      (comp ++ [cur])
            end
      end
  end.

(** The loop [for node in neighbors]. *)
Fixpoint components_from (neighbors : list (Z * gset Z)) (nodes : list Z)
    (visited : gset Z) (groups : list (list Z)) : result (list (list Z)) :=
  match nodes with
  | [] => Ok groups
  | node :: nodes' =>
      if decide (node ∈ visited) then
        components_from neighbors nodes' visited groups
      else
        '(visited', comp) ← visit (dfs_fuel neighbors) neighbors visited [node] [] ;
        components_from neighbors nodes' visited' (groups ++ [comp])
  end.

Definition connected_components (neighbors : list (Z * gset Z))
    : result (list (list Z)) :=
  components_from neighbors (od_keys neighbors) ∅ [].

Definition collect_groups (n : nat) (lims : list nat) (labels : list Z)
    : result (list (list Z)) :=
  neighbors ← build_neighbors n lims labels ;
  connected_components neighbors.
End traversal.

(** ** Step 3: [write_dedup_jsonl] *)

(** The ["original"] or ["duplicate"] sub-dict built from a lookup record. *)
Definition clip_side (c : LookupRecord) : ClipSide :=
  {| cs_file_id := file_id c;
     cs_file_name := file_name c;
     cs_media_type := media_type c;
     cs_clip_idx := clip_idx c;
     cs_start_s := start_s c;
     cs_end_s := end_s c |}.

(** [[lookup[i] for i in group if i in lookup]]. *)
Definition mapped_entries (lookup : list (Z * LookupRecord)) (group : list Z)
    : list LookupRecord :=
  omap (od_get lookup) group.

(** The [by_file] dict of a group's entries. *)
Definition partition_by_file (entries : list LookupRecord)
    : list (Z * list LookupRecord) :=
  foldl (λ by_file e, od_append by_file (file_id e) e) [] entries.

(** The pairs [(file_ids[i], file_ids[j])] for [i < j], in the order of
    the two nested [range] loops. *)
Fixpoint file_pairs (file_ids : list Z) : list (Z * Z) :=
  match file_ids with
  | [] => []
  | fid_a :: rest => ((λ fid_b, (fid_a, fid_b)) <$> rest) ++ file_pairs rest
  end.

(** The loops [for ca in clips_a: for cb in clips_b]. *)
Definition add_clip_pairs (pair_map : list ((Z * Z) * list ClipPair))
    (key : Z * Z) (clips_a clips_b : list LookupRecord)
    : list ((Z * Z) * list ClipPair) :=
  foldl (λ pm ca,
           foldl (λ pm' cb,
                    od_append pm' key
                      {| original := clip_side ca; duplicate := clip_side cb |})
                 pm clips_b)
        pair_map clips_a.

(** The body of [for group in groups]. *)
Definition add_group (lookup : list (Z * LookupRecord))
    (pair_map : list ((Z * Z) * list ClipPair)) (group : list Z)
    : list ((Z * Z) * list ClipPair) :=
  if decide (length group ≤ 1)%nat then pair_map
  else
    let entries := mapped_entries lookup group in
    if decide (length entries ≤ 1)%nat then pair_map
    else
      let by_file := partition_by_file entries in
      let file_ids := od_keys by_file in
      if decide (length file_ids ≤ 1)%nat then pair_map
      else
        foldl (λ pm '(fid_a, fid_b),
                 add_clip_pairs pm (fid_a, fid_b)
                   (default [] (od_get by_file fid_a))
                   (default [] (od_get by_file fid_b)))
              pair_map (file_pairs file_ids).

(** The accumulated [pair_map] at the end of the first loop. *)
Definition accumulate (groups : list (list Z)) (lookup : list (Z * LookupRecord))
    : list ((Z * Z) * list ClipPair) :=
  foldl (add_group lookup) [] groups.

(** [[e["duration"] for e in lookup.values() if e["file_id"] == fid]]. *)
Definition durations_of (lookup : list (Z * LookupRecord)) (fid : Z) : list Q :=
  duration <$> filter (λ e, file_id e = fid) (od_values lookup).

(** [ds[0] if ds else 0.0]. *)
Definition first_or_zero (ds : list Q) : Q :=
  match ds with
  | d :: _ => d
  | [] => 0%Q
  end.

(** The record built for one item of [pair_map]. *)
Definition finalize (lookup : list (Z * LookupRecord))
    (item : (Z * Z) * list ClipPair) : result DuplicatePairRecord :=
  let '((fid_a, fid_b), clip_pairs) := item in
  first ← index clip_pairs 0 ;
  Ok {| original_file_id := fid_a;
        original_file_name := cs_file_name (original first);
        original_duration := first_or_zero (durations_of lookup fid_a);
        duplicate_file_id := fid_b;
        duplicate_file_name := cs_file_name (duplicate first);
        duplicate_duration := first_or_zero (durations_of lookup fid_b);
        clips := clip_pairs |}.

(** The records written to [output_path], one per line and in this order,
    when the call returns. *)
Definition write_dedup_jsonl (groups : list (list Z))
    (lookup : list (Z * LookupRecord)) : result (list DuplicatePairRecord) :=
  each (finalize lookup) (accumulate groups lookup).

(** ** [update_duplicate_flags] *)

(** A value decoded by [json.loads]. *)
#[local] Unset Elimination Schemes.
Inductive json : Type :=
  | JNull
  | JBool (b : bool)
  | JInt (z : Z)
  | JFloat (q : Q)
  | JStr (s : string)
  | JArr (items : list json)
  | JObj (fields : list (string * json)).
#[local] Set Elimination Schemes.

(** The int that a float equals, if any ([1.0 == 1] in Python). *)
Definition integral (q : Q) : option Z :=
  if decide (Z.rem (Qnum q) (Z.pos (Qden q)) = 0)
  then Some (Z.quot (Qnum q) (Z.pos (Qden q))) else None.

(** The int key of [updates] that [fid] is equal to, as [fid in updates]
    finds it: [True] and [1.0] equal [1]; [None] and strings equal no int;
    lists and dicts cannot be hashed. *)
Definition key_of (fid : json) : result (option Z) :=
  match fid with
  | JNull => Ok None
  | JBool b => Ok (Some (if b then 1 else 0))
  | JInt z => Ok (Some z)
  | JFloat q => Ok (integral q)
  | JStr _ => Ok None
  | JArr _ | JObj _ => Raise TypeError
  end.

(** The body of [for entry in entries]. *)
Definition update_entry (updates : gmap Z bool) (entry : json) : result json :=
  match entry with
  | JObj fields =>
      k ← key_of (default JNull (od_get fields "file_id")) ;
      match k ≫= (updates !!.) with
      | Some flag => Ok (JObj (od_set fields "duplicate" (JBool flag)))
      | None => Ok entry
      end
  | _ => Raise AttributeError
  end.

Definition newline : string := String (ascii_of_nat 10) EmptyString.

Section flags.
(** [json.loads], [None] on a [JSONDecodeError], and [json.dumps]. *)
Variable json_loads : string → option json.
Variable json_dumps : json → string.
(** [not line.strip()]: the line holds nothing but whitespace, as Python's
    [str.strip] knows it. *)
Variable blank : string → bool.
(** [f.write(s)] takes [s]: the UTF-8 encoder of the file accepts it. It
    raises [UnicodeEncodeError] on a lone surrogate, which [json.loads]
    yields for an escape such as [\ud800]. *)
Variable encodes : string → bool.

(** The loop [for line in f]. *)
Fixpoint load_entries (lines : list string) : result (list json) :=
  match lines with
  | [] => Ok []
  | line :: lines' =>
      if blank line then load_entries lines'
      else
        match json_loads line with
        | None => Raise JSONDecodeError
        | Some entry => entries ← load_entries lines' ; Ok (entry :: entries)
        end
  end.

(** The loop of [f.write] on the file that [open(..., "w")] has emptied:
    what it raises, and the lines that the file holds when it is closed.
    A line that the encoder refuses is not written, and ends the loop. *)
Fixpoint write_entries (entries : list json) : result () * list string :=
  match entries with
  | [] => (Ok (), [])
  | entry :: entries' =>
      let line := (json_dumps entry ++ newline)%string in
      if encodes line then
        let '(r, written) := write_entries entries' in (r, line :: written)
      else (Raise UnicodeEncodeError, [])
  end.

(** The file at [descriptions_path] is the list of its lines, as
    iterating over it yields them.  The result is what the call returns
    or raises, with the lines of the file afterwards: the file is opened
    for writing, and so emptied, only after every entry is updated. *)
Definition update_duplicate_flags (file : list string) (updates : gmap Z bool)
    : result (list json) * list string :=
  match entries ← load_entries file ; each (update_entry updates) entries with
  | Ok entries' =>
      let '(r, written) := write_entries entries' in
      (_ ← r ; Ok entries', written)
  | Raise e => (Raise e, file)
  end.
End flags.

(** Python's own order is one instance; two others to compare with. *)
Definition order_asc (cur : Z) (visited s : gset Z) : list Z := elements s.
Definition order_desc (cur : Z) (visited s : gset Z) : list Z := reverse (elements s).

(** There is an edge between [u] and [v] in the adjacency structure. *)
Definition edge (neighbors : list (Z * gset Z)) (u v : Z) : Prop :=
  ∃ s, od_get neighbors u = Some s ∧ v ∈ s.

(** The components as a set of sets of ids. *)
Definition component_sets (groups : list (list Z)) : gset (gset Z) :=
  list_to_set (list_to_set <$> groups).

(** * Vocabulary of the properties *)

(** ** The graph and its traversal *)

(** What the construction loop maintains: the relation is symmetric, has
    no self-loop, and every key has a neighbour. *)
Record adj_ok (neighbors : list (Z * gset Z)) : Prop := {
  adj_sym : ∀ u v, edge neighbors u v → edge neighbors v u;
  adj_irrefl : ∀ u, ¬ edge neighbors u u;
  adj_nonempty : ∀ u s, od_get neighbors u = Some s → ∃ v, v ∈ s;
}.

(** A well-formed range-search result: [n + 1] row offsets that do not
    decrease and stay within [labels]. *)
Definition csr_ok (n : nat) (lims : list nat) (labels : list Z) : Prop :=
  length lims = S n ∧
  ∀ i start stop, lims !! i = Some start → lims !! S i = Some stop →
    (start ≤ stop ≤ length labels)%nat.

(** The neighbour sets of the nodes not yet visited: what the stack can
    still grow by. *)
Definition pending (nb : list (Z * gset Z)) (visited : gset Z) : nat :=
  sum_list ((λ '(k, s), if decide (k ∈ visited) then 0 else size s)%nat <$> nb).

(** [x] and [y] are linked by a chain of edges. *)
Definition reach (nb : list (Z * gset Z)) : Z → Z → Prop := rtc (edge nb).

(** The invariant of [while stack], for the component that started at
    [root] when [visited0] had been visited. *)
Record visit_inv (nb : list (Z * gset Z)) (visited0 : gset Z) (root : Z)
    (visited : gset Z) (stack comp : list Z) : Prop := {
  vi_visited : visited = visited0 ∪ list_to_set comp;
  vi_nodup : NoDup comp;
  vi_fresh : ∀ x, x ∈ comp → x ∉ visited0;
  vi_stack : ∀ x, x ∈ stack → reach nb root x;
  vi_comp : ∀ x, x ∈ comp → reach nb root x;
  vi_front : ∀ x y, x ∈ comp → edge nb x y → y ∈ visited ∨ y ∈ stack;
  vi_root : root ∈ comp ∨ root ∈ stack;
  vi_root_fresh : root ∉ visited0;
  vi_root_key : is_Some (od_get nb root);
}.

(** The invariant of [for node in neighbors]. *)
Record groups_inv (nb : list (Z * gset Z)) (visited : gset Z)
    (groups : list (list Z)) : Prop := {
  gi_visited : visited = list_to_set (concat groups);
  gi_nodup : NoDup (concat groups);
  gi_closed : ∀ x y, x ∈ visited → edge nb x y → y ∈ visited;
  gi_comp : ∀ comp, comp ∈ groups →
    ∃ root, is_Some (od_get nb root) ∧ ∀ x, x ∈ comp ↔ reach nb root x;
}.

(** The adjacency structure of a small search result, used as an instance:
    rows [10: 10 20], [11: 11 20], [30: 30]. *)
Definition sample_lims : list nat := [0; 2; 4; 5]%nat.
Definition sample_labels : list Z := [10; 20; 11; 20; 30].
Definition sample_neighbors : list (Z * gset Z) :=
  match build_neighbors 3 sample_lims sample_labels with
  | Ok nb => nb
  | Raise _ => []
  end.

(** ** The pair map and the records *)

(** [d[k]] on a [defaultdict(list)], read only. *)
Definition entries_of {K A : Type} `{EqDecision K}
    (d : list (K * list A)) (k : K) : list A :=
  default [] (od_get d k).

(** A run of [d[k].append(x)], one per item of [items]. *)
Definition append_all {K A : Type} `{EqDecision K}
    (d : list (K * list A)) (items : list (K * A)) : list (K * list A) :=
  foldl (λ d' item, od_append d' item.1 item.2) d items.

(** The values among [items] that go under the key [k]. *)
Definition under {K A : Type} `{EqDecision K} (k : K) (items : list (K * A)) : list A :=
  (filter (λ item, item.1 = k) items).*2.

(** The sub-records that the loops over [clips_a] and [clips_b] append. *)
Definition clip_pairs_of (key : Z * Z) (clips_a clips_b : list LookupRecord)
    : list ((Z * Z) * ClipPair) :=
  ca ← clips_a;
  (λ cb, (key, {| original := clip_side ca; duplicate := clip_side cb |})) <$> clips_b.

(** The files of a group, in the order in which [by_file] first meets them. *)
Definition first_seen (lookup : list (Z * LookupRecord)) (group : list Z) : list Z :=
  od_keys (partition_by_file (mapped_entries lookup group)).

(** The sub-records that one group appends, with their keys, in order. *)
Definition emissions (lookup : list (Z * LookupRecord)) (group : list Z)
    : list ((Z * Z) * ClipPair) :=
  let entries := mapped_entries lookup group in
  let by_file := partition_by_file entries in
  if decide (length group ≤ 1)%nat then []
  else if decide (length entries ≤ 1)%nat then []
  else if decide (length (od_keys by_file) ≤ 1)%nat then []
  else
    key ← file_pairs (od_keys by_file);
    clip_pairs_of key (entries_of by_file key.1) (entries_of by_file key.2).

(** The sub-records that a group contributes under a key: what the loop
    body leaves under that key when it starts from an empty [pair_map]. *)
Definition contribution (lookup : list (Z * LookupRecord)) (group : list Z)
    (key : Z * Z) : list ClipPair :=
  entries_of (add_group lookup [] group) key.

(** The entries of a group that belong to the file [fid], in group order. *)
Definition file_entries (lookup : list (Z * LookupRecord)) (group : list Z)
    (fid : Z) : list LookupRecord :=
  filter (λ e, file_id e = fid) (mapped_entries lookup group).

(** Every clip of one file against every clip of the other. *)
Definition cross_pairs (clips_a clips_b : list LookupRecord) : list ClipPair :=
  ca ← clips_a;
  (λ cb, {| original := clip_side ca; duplicate := clip_side cb |}) <$> clips_b.

(** The group meets file [a] before file [b]. *)
Definition meets_before (lookup : list (Z * LookupRecord)) (group : list Z)
    (a b : Z) : Prop :=
  (a, b) ∈ file_pairs (first_seen lookup group).

#[export] Instance meets_before_dec lookup group a b :
  Decision (meets_before lookup group a b).
Proof. unfold meets_before. apply _. Defined.

(** The key of a record, and whether a record is about the two files
    [a] and [b], whichever is labelled original. *)
Definition record_key (r : DuplicatePairRecord) : Z * Z :=
  (original_file_id r, duplicate_file_id r).

Definition links (a b : Z) (r : DuplicatePairRecord) : Prop :=
  record_key r = (a, b) ∨ record_key r = (b, a).

#[export] Instance links_dec a b r : Decision (links a b r).
Proof. unfold links. apply _. Defined.

(** [d] is the duration of the first value of the lookup table, in
    insertion order, whose file is [fid], or [0.0] if there is none. *)
Definition first_duration (lookup : list (Z * LookupRecord)) (fid : Z) (d : Q) : Prop :=
  (∃ before e after,
     od_values lookup = before ++ e :: after ∧
     (∀ e', e' ∈ before → file_id e' ≠ fid) ∧
     file_id e = fid ∧ d = duration e) ∨
  ((∀ e, e ∈ od_values lookup → file_id e ≠ fid) ∧ d = 0%Q).

(** [r] is the record of the item [(key, clip_pairs)] of the pair map. *)
Definition finalized (lookup : list (Z * LookupRecord))
    (item : (Z * Z) * list ClipPair) (r : DuplicatePairRecord) : Prop :=
  ∃ first,
    item.2 !! 0%nat = Some first ∧
    record_key r = item.1 ∧
    original_file_name r = cs_file_name (original first) ∧
    duplicate_file_name r = cs_file_name (duplicate first) ∧
    first_duration lookup item.1.1 (original_duration r) ∧
    first_duration lookup item.1.2 (duplicate_duration r) ∧
    clips r = item.2.

(** A lookup table used as an instance: two clips of file 1, two of
    file 2, two of file 5. *)
Definition sample_clip (fid file idx : Z) (name : string) : LookupRecord :=
  {| file_id := file; file_name := name; clip_idx := Some idx; faiss_id := fid;
     media_type := "video"; prefix := ""; duration := 12%Q; variance := 0%Q;
     start_s := Some 0%Q; end_s := Some 4%Q |}.

Definition sample_lookup : list (Z * LookupRecord) :=
  [(10, sample_clip 10 1 0 "a.mp4"); (11, sample_clip 11 1 1 "a.mp4");
   (20, sample_clip 20 2 0 "b.mp4"); (21, sample_clip 21 2 1 "b.mp4");
   (30, sample_clip 30 5 0 "c.mp4"); (31, sample_clip 31 5 1 "c.mp4")].

(** ** The metadata entries *)

(** The entry has a vector id to file a record under: a video with a clip
    that has one, or an image that has one. *)
Definition indexed (entry : MediaEntry) : Prop :=
  (e_media_type entry = Some "video" ∧
   Exists (λ clip, is_Some (c_faiss_id clip)) (default [] (e_clips entry))) ∨
  (e_media_type entry = Some "image" ∧ is_Some (e_faiss_id entry)).

(** The entry lacks [file_id] or [file_name]. *)
Definition unnamed (entry : MediaEntry) : Prop :=
  e_file_id entry = None ∨ e_file_name entry = None.

Definition required_field (field : string) : Prop :=
  field = "file_id" ∨ field = "file_name".

#[export] Instance indexed_dec entry : Decision (indexed entry).
Proof. unfold indexed. apply _. Defined.

#[export] Instance unnamed_dec entry : Decision (unnamed entry).
Proof. unfold unnamed. apply _. Defined.

(** An image entry with no key but [media_type]. *)
Definition bare_image : MediaEntry :=
  {| e_media_type := Some "image"; e_file_id := None; e_file_name := None;
     e_prefix := None; e_duration := None; e_quality := None;
     e_metadata := None; e_clips := None; e_faiss_id := None |}.

(** A video entry without names, whose only clip has no vector id. *)
Definition bare_video : MediaEntry :=
  {| e_media_type := Some "video"; e_file_id := None; e_file_name := None;
     e_prefix := None; e_duration := None; e_quality := None;
     e_metadata := None;
     e_clips := Some [{| c_clip_idx := Some 0; c_start_s := None;
                         c_end_s := None; c_faiss_id := None |}];
     e_faiss_id := None |}.

(** An image entry with a vector id and a file id, but no file name. *)
Definition nameless_image : MediaEntry :=
  {| e_media_type := Some "image"; e_file_id := Some 7; e_file_name := None;
     e_prefix := None; e_duration := None; e_quality := None;
     e_metadata := None; e_clips := None; e_faiss_id := Some 70 |}.

(** ** The entries file *)

(** The [file_id] of an entry as [entry.get("file_id")] returns it. *)
Definition file_id_of (fields : list (string * json)) : json :=
  default JNull (od_get fields "file_id").

(** The entry can be updated: it is an object whose [file_id] can be
    looked up in a dict. *)
Definition updatable (entry : json) : Prop :=
  ∃ fields k, entry = JObj fields ∧ key_of (file_id_of fields) = Ok k.

(** [entry'] is [entry] after the update loop: an entry whose [file_id] is
    a key of [updates] has its [duplicate] field set to the value of the
    key, in place if the field exists and at the end otherwise, and keeps
    every other field; any other entry is unchanged. *)
Definition updated (updates : gmap Z bool) (entry entry' : json) : Prop :=
  ∃ fields k, entry = JObj fields ∧ key_of (file_id_of fields) = Ok k ∧
    match k ≫= (updates !!.) with
    | Some flag =>
        ∃ fields', entry' = JObj fields' ∧
          od_get fields' "duplicate" = Some (JBool flag) ∧
          (∀ name, name ≠ "duplicate" → od_get fields' name = od_get fields name) ∧
          od_keys fields' =
            match od_get fields "duplicate" with
            | Some _ => od_keys fields
            | None => od_keys fields ++ ["duplicate"]
            end
    | None => entry' = entry
    end.

(** A small entries file and the two library functions on it, used as an
    instance: [sample_loads] decodes the two well-formed lines below and
    nothing else, [sample_dumps] writes flat objects. *)
Definition dq : string := String (ascii_of_nat 34) EmptyString.

Definition sample_line1 : string :=
  ("{" ++ dq ++ "file_id" ++ dq ++ ": 1, " ++ dq ++ "duplicate" ++ dq ++ ": false}"
   ++ newline)%string.
Definition sample_line2 : string :=
  ("{" ++ dq ++ "file_id" ++ dq ++ ": 2}" ++ newline)%string.
Definition broken_line : string :=
  ("{" ++ dq ++ "file_id" ++ dq ++ ": " ++ newline)%string.

Definition sample_entry1 : json := JObj [("file_id", JInt 1); ("duplicate", JBool false)].
Definition sample_entry2 : json := JObj [("file_id", JInt 2)].

Definition sample_loads (line : string) : option json :=
  if decide (line = sample_line1) then Some sample_entry1
  else if decide (line = sample_line2) then Some sample_entry2
  else None.

Definition dumps_scalar (v : json) : string :=
  match v with
  | JBool true => "true"
  | JBool false => "false"
  | JInt z => pretty z
  | JStr s => (dq ++ s ++ dq)%string
  | _ => "null"
  end.

Definition sample_dumps (entry : json) : string :=
  match entry with
  | JObj fields =>
      ("{" ++ String.concat ", "
                ((λ kv, (dq ++ kv.1 ++ dq ++ ": " ++ dumps_scalar kv.2)%string) <$> fields)
           ++ "}")%string
  | v => dumps_scalar v
  end.

(** ** Further vocabulary: the lookup table *)

(** The vector ids under which an entry files records, in order: those of
    its clips for a video, its own for an image. *)
Definition carried (entry : MediaEntry) : list Z :=
  if decide (e_media_type entry = Some "video") then
    omap c_faiss_id (default [] (e_clips entry))
  else if decide (e_media_type entry = Some "image") then
    option_list (e_faiss_id entry)
  else [].

(** [r] is a record that the loop body files under [fid] for [entry]. *)
Definition files (entry : MediaEntry) (fid : Z) (r : LookupRecord) : Prop :=
  (e_media_type entry = Some "video" ∧
   ∃ clip, clip ∈ default [] (e_clips entry) ∧ c_faiss_id clip = Some fid ∧
     video_record entry clip fid = Ok r) ∨
  (e_media_type entry = Some "image" ∧ e_faiss_id entry = Some fid ∧
   image_record entry fid = Ok r).

(** A video entry with two indexed clips, and an image entry that reuses
    the vector id of the second clip. *)
Definition sample_video : MediaEntry :=
  {| e_media_type := Some "video"; e_file_id := Some 1; e_file_name := Some "a.mp4";
     e_prefix := None; e_duration := Some 12%Q; e_quality := None;
     e_metadata := None;
     e_clips := Some [{| c_clip_idx := Some 0; c_start_s := Some 0%Q;
                         c_end_s := Some 4%Q; c_faiss_id := Some 10 |};
                      {| c_clip_idx := Some 1; c_start_s := Some 4%Q;
                         c_end_s := Some 8%Q; c_faiss_id := Some 11 |}];
     e_faiss_id := None |}.

Definition sample_image : MediaEntry :=
  {| e_media_type := Some "image"; e_file_id := Some 3; e_file_name := Some "c.jpg";
     e_prefix := None; e_duration := None; e_quality := None;
     e_metadata := None; e_clips := None; e_faiss_id := Some 11 |}.

(** The table of the two sample entries. *)
Definition sample_table : list (Z * LookupRecord) :=
  match build_id_lookup [sample_video; sample_image] with
  | Ok lookup => lookup
  | Raise _ => []
  end.

(** The record of the first sample clip in the sample table. *)
Definition sample_first_record : LookupRecord :=
  default (sample_clip 0 0 0 "") (od_get sample_table 10).

(** ** Further vocabulary: the search result *)

(** Row [qi] of the search result links [u] and [v]: one is the first
    label of the row, the other a later label of the row that is neither
    the sentinel nor the first label. *)
Definition row_link (lims : list nat) (labels : list Z) (qi : nat) (u v : Z) : Prop :=
  ∃ start stop qid jid,
    lims !! qi = Some start ∧ lims !! S qi = Some stop ∧ start ≠ stop ∧
    labels !! start = Some qid ∧ jid ∈ slice labels start stop ∧
    jid ≠ -1 ∧ jid ≠ qid ∧
    ((u = qid ∧ v = jid) ∨ (u = jid ∧ v = qid)).

(** Some row among the first [n] links [u] and [v]. *)
Definition row_edge (n : nat) (lims : list nat) (labels : list Z) (u v : Z) : Prop :=
  ∃ qi, (qi < n)%nat ∧ row_link lims labels qi u v.

(** No row among the first [n] starts with the sentinel. *)
Definition first_labels_real (n : nat) (lims : list nat) (labels : list Z) : Prop :=
  ∀ qi start, (qi < n)%nat → lims !! qi = Some start → labels !! start ≠ Some (-1).

(** Every label of the first [n] rows is the sentinel or the first label
    of its row: no query has a neighbour but itself. *)
Definition self_only (n : nat) (lims : list nat) (labels : list Z) : Prop :=
  ∀ qi start stop qid jid, (qi < n)%nat →
    lims !! qi = Some start → lims !! S qi = Some stop →
    labels !! start = Some qid → jid ∈ slice labels start stop →
    jid = -1 ∨ jid = qid.

(** ** Further vocabulary: the groups and the records *)

(** The ids of a group that are keys of the lookup table. *)
Definition present (lookup : list (Z * LookupRecord)) (group : list Z) : list Z :=
  filter (λ i, is_Some (od_get lookup i)) group.

(** The sub-record of two lookup records. *)
Definition clip_pair (ca cb : LookupRecord) : ClipPair :=
  {| original := clip_side ca; duplicate := clip_side cb |}.

(** The record written for the group [10, 11, 20] over the sample lookup
    table. *)
Definition sample_record : DuplicatePairRecord :=
  {| original_file_id := 1; original_file_name := "a.mp4";
     original_duration := 12%Q;
     duplicate_file_id := 2; duplicate_file_name := "b.mp4";
     duplicate_duration := 12%Q;
     clips := [clip_pair (sample_clip 10 1 0 "a.mp4") (sample_clip 20 2 0 "b.mp4");
               clip_pair (sample_clip 11 1 1 "a.mp4") (sample_clip 20 2 0 "b.mp4")] |}.

(** ** Further vocabulary: the entries file *)

(** The line that the write loop writes for [entry], and whether the
    encoder of the file accepts it. *)
Definition line_of (json_dumps : json → string) (entry : json) : string :=
  (json_dumps entry ++ newline)%string.

Definition encodable (json_dumps : json → string) (encodes : string → bool)
    (entry : json) : Prop :=
  encodes (line_of json_dumps entry) = true.

(** [json_loads] reads back what [json_dumps] wrote for [entry], as a line
    that is not blank. *)
Definition reads_back (json_loads : string → option json)
    (json_dumps : json → string) (blank : string → bool) (entry : json) : Prop :=
  blank (json_dumps entry ++ newline)%string = false ∧
  json_loads (json_dumps entry ++ newline)%string = Some entry.

(** Instances of [blank] and [encodes], for a [str] held as the bytes of
    its UTF-8 encoding, a lone surrogate as the three bytes of its code
    point. The whitespace of [str.strip]: U+0009 to U+000D, U+001C to
    U+0020, U+0085, U+00A0, U+1680, U+2000 to U+200A, U+2028, U+2029,
    U+202F, U+205F and U+3000. *)
Definition ascii_space (b : N) : bool :=
  ((9 <=? b) && (b <=? 13) || (28 <=? b) && (b <=? 32))%N.

Definition two_byte_space (b c : N) : bool :=
  ((b =? 194) && ((c =? 133) || (c =? 160)))%N.

Definition three_byte_space (b c d : N) : bool :=
  ((b =? 225) && (c =? 154) && (d =? 128) ||
   (b =? 226) && (c =? 128) &&
     ((128 <=? d) && (d <=? 138) || (d =? 168) || (d =? 169) || (d =? 175)) ||
   (b =? 226) && (c =? 129) && (d =? 159) ||
   (b =? 227) && (c =? 128) && (d =? 128))%N.

Fixpoint spaces (bytes : list N) : bool :=
  match bytes with
  | [] => true
  | b :: rest =>
      if ascii_space b then spaces rest
      else
        match rest with
        | [] => false
        | c :: rest1 =>
            if two_byte_space b c then spaces rest1
            else
              match rest1 with
              | [] => false
              | d :: rest2 => if three_byte_space b c d then spaces rest2 else false
              end
        end
  end.

Definition utf8_blank (line : string) : bool :=
  spaces (N_of_ascii <$> list_ascii_of_string line).

(** No code point from U+D800 to U+DFFF: no byte 237 before a byte from
    160 on. *)
Fixpoint no_surrogate (bytes : list N) : bool :=
  match bytes with
  | [] => true
  | b :: rest =>
      match rest with
      | [] => true
      | c :: _ => if ((b =? 237) && (160 <=? c))%N then false else no_surrogate rest
      end
  end.

Definition utf8_encodes (s : string) : bool :=
  no_surrogate (N_of_ascii <$> list_ascii_of_string s).

(** The [str] of the lone surrogate U+D800, a line that holds it as a JSON
    escape, the entry that the line decodes to, and a decoder that knows the
    line. *)
Definition surrogate : string :=
  String (ascii_of_nat 237) (String (ascii_of_nat 160) (String (ascii_of_nat 128) EmptyString)).

Definition escaped_line : string :=
  ("{" ++ dq ++ "file_id" ++ dq ++ ": 2, " ++ dq ++ "file_name" ++ dq ++ ": "
   ++ dq ++ "\ud800" ++ dq ++ "}" ++ newline)%string.

Definition surrogate_entry : json :=
  JObj [("file_id", JInt 2); ("file_name", JStr surrogate)].

Definition escape_loads (line : string) : option json :=
  if decide (line = escaped_line) then Some surrogate_entry else sample_loads line.

(** A line that holds nothing but a no-break space, U+00A0. *)
Definition nbsp_line : string :=
  String (ascii_of_nat 194) (String (ascii_of_nat 160) newline).

(** The decoder that inverts [sample_dumps] on the entries [known]. *)
Definition loads_of (known : list json) (line : string) : option json :=
  snd <$> list_find (λ entry, (sample_dumps entry ++ newline)%string = line) known.

(** The first sample entry once flagged. *)
Definition flagged_entry1 : json := JObj [("file_id", JInt 1); ("duplicate", JBool true)].
Definition unflagged_entry1 : json := JObj [("file_id", JInt 1); ("duplicate", JBool false)].

(** A line that holds a number, and one whose [file_id] is a list. *)
Definition number_entry : json := JInt 3.
Definition list_id_entry : json := JObj [("file_id", JArr [JInt 1])].

(** * Properties *)

(** ** Dictionaries *)

Section odict_facts.
Context {K V : Type} `{EqDecision K}.
Implicit Types (d : list (K * V)) (k : K) (v : V).

Lemma od_get_set_eq d k v : od_get (od_set d k v) k = Some v.
Proof.
  induction d as [|[k' v'] d IH]; simpl.
  - by rewrite decide_True.
  - destruct (decide (k = k')) as [-> |Hne]; simpl.
    + by rewrite decide_True.
    + by rewrite decide_False.
Qed.

Lemma od_get_set_ne d k k' v : k ≠ k' → od_get (od_set d k v) k' = od_get d k'.
Proof.
  intros Hne. induction d as [|[k0 v0] d IH]; simpl.
  - by rewrite decide_False.
  - destruct (decide (k = k0)) as [-> |Hk]; simpl.
    + by rewrite !decide_False.
    + destruct (decide (k' = k0)); done.
Qed.

Lemma od_get_set d k k' v :
  od_get (od_set d k v) k' = if decide (k = k') then Some v else od_get d k'.
Proof.
  destruct (decide (k = k')) as [-> |Hne];
    [apply od_get_set_eq | by apply od_get_set_ne].
Qed.

Lemma od_get_keys d k : is_Some (od_get d k) ↔ k ∈ od_keys d.
Proof.
  unfold od_keys. induction d as [|[k' v'] d IH]; csimpl.
  - split; [by intros [? ?] | by intros ?%elem_of_nil].
  - rewrite elem_of_cons. destruct (decide (k = k')) as [-> |Hne].
    + split; eauto.
    + rewrite IH. split; [by right | by intros [?|?]].
Qed.

Lemma od_get_None_keys d k : od_get d k = None ↔ k ∉ od_keys d.
Proof. rewrite <-od_get_keys, eq_None_not_Some. done. Qed.

Lemma od_get_elem_of d k v : od_get d k = Some v → (k, v) ∈ d.
Proof.
  induction d as [|[k' v'] d IH]; simpl; [done|].
  destruct (decide (k = k')) as [-> |Hne].
  - intros [= ->]. left.
  - intros ?. right. auto.
Qed.

Lemma od_keys_set d k v :
  od_keys (od_set d k v) =
  match od_get d k with Some _ => od_keys d | None => od_keys d ++ [k] end.
Proof.
  unfold od_keys. induction d as [|[k' v'] d IH]; csimpl; [done|].
  destruct (decide (k = k')) as [-> |Hne]; csimpl; [done|].
  rewrite IH. by destruct (od_get d k).
Qed.

Lemma od_keys_set_NoDup d k v : NoDup (od_keys d) → NoDup (od_keys (od_set d k v)).
Proof.
  intros Hnd. rewrite od_keys_set.
  destruct (od_get d k) eqn:Hget; [done|].
  apply NoDup_app. split_and!; [done| |apply NoDup_singleton].
  intros x Hx ->%list_elem_of_singleton.
  by apply od_get_None_keys in Hget.
Qed.

Lemma od_get_NoDup d k v : NoDup (od_keys d) → (k, v) ∈ d → od_get d k = Some v.
Proof.
  unfold od_keys. induction d as [|[k' v'] d IH]; csimpl.
  - by intros _ ?%elem_of_nil.
  - intros [Hnotin Hnd]%NoDup_cons [[= -> ->]|Hin]%elem_of_cons.
    + by rewrite decide_True.
    + rewrite decide_False; [by apply IH|].
      intros ->. apply Hnotin. apply list_elem_of_fmap. by exists (k', v).
Qed.
End odict_facts.

Lemma elem_of_concat {A : Type} (x : A) (ls : list (list A)) :
  x ∈ concat ls ↔ ∃ l, l ∈ ls ∧ x ∈ l.
Proof.
  induction ls as [|l0 ls IH]; simpl.
  - split; [by intros ?%elem_of_nil | by intros (l & ?%elem_of_nil & _)].
  - rewrite elem_of_app, IH. split.
    + intros [?|(l & ? & ?)]; [exists l0 | exists l]; split; try done;
        [left | by right].
    + intros (l & [-> | ?]%elem_of_cons & ?); [by left | right; eauto].
Qed.

(** ** The adjacency structure *)

Lemma edge_od_add nb k x u v :
  edge (od_add nb k x) u v ↔ edge nb u v ∨ (u = k ∧ v = x).
Proof.
  unfold edge, od_add. rewrite od_get_set.
  destruct (decide (k = u)) as [-> |Hne].
  - split.
    + intros (s & [= <-] & Hv). apply elem_of_union in Hv as [Hv|Hv].
      * left. destruct (od_get nb u) as [s0|]; [eauto | set_solver].
      * right. set_solver.
    + intros [(s & Hs & Hv)|[_ ->]]; eexists; (split; [done|]).
      * rewrite Hs. set_solver.
      * set_solver.
  - split; [by left | intros [?|[-> _]]; done].
Qed.

Lemma edge_add_pair nb q j u v :
  edge (od_add (od_add nb q j) j q) u v ↔
  edge nb u v ∨ (u = q ∧ v = j) ∨ (u = j ∧ v = q).
Proof. rewrite !edge_od_add. tauto. Qed.

Lemma od_add_nonempty (nb : list (Z * gset Z)) (k x u : Z) s :
  (∀ u s, od_get nb u = Some s → ∃ v, v ∈ s) →
  od_get (od_add nb k x) u = Some s → ∃ v, v ∈ s.
Proof.
  intros Hnb. unfold od_add. rewrite od_get_set.
  destruct (decide (k = u)); [|by apply Hnb].
  intros [= <-]. exists x. set_solver.
Qed.

Lemma adj_ok_nil : adj_ok [].
Proof. split; [intros u v (s & Hs & _)|intros u (s & Hs & _)|]; done. Qed.

Lemma adj_ok_add_pair nb q j :
  q ≠ j → adj_ok nb → adj_ok (od_add (od_add nb q j) j q).
Proof.
  intros Hne [Hsym Hirr Hnon]. split.
  - intros u v. rewrite !edge_add_pair. naive_solver.
  - intros u. rewrite edge_add_pair. naive_solver.
  - intros u s. apply od_add_nonempty. intros u' s'. by apply od_add_nonempty.
Qed.

Lemma adj_ok_add_row nb qid row : adj_ok nb → adj_ok (add_row nb qid row).
Proof.
  unfold add_row. revert nb. induction row as [|jid row IH]; intros nb Hnb; [done|].
  simpl. apply IH. case_bool_decide as Hskip; [done|].
  apply adj_ok_add_pair; [|done]. intros ->. apply Hskip. by right.
Qed.

Lemma adj_ok_add_rows lims labels qis nb nb' :
  adj_ok nb → add_rows lims labels qis nb = Ok nb' → adj_ok nb'.
Proof.
  revert nb. induction qis as [|qi qis IH]; intros nb Hnb; simpl.
  - by intros [= <-].
  - destruct (index lims qi) as [start|]; [|done].
    destruct (index lims (S qi)) as [stop|]; [|done]. simpl.
    case_decide; [by apply IH|].
    destruct (index labels start) as [qid|]; [|done]. simpl.
    apply IH. by apply adj_ok_add_row.
Qed.

Lemma build_neighbors_adj_ok n lims labels nb :
  build_neighbors n lims labels = Ok nb → adj_ok nb.
Proof. apply adj_ok_add_rows, adj_ok_nil. Qed.

(** What does hold about the sentinel: the test [jid == -1] keeps it out
    of the structure as long as no row starts with it. *)
Lemma sentinel_free_add_row nb qid row :
  qid ≠ -1 →
  (∀ u v, edge nb u v → u ≠ -1 ∧ v ≠ -1) →
  ∀ u v, edge (add_row nb qid row) u v → u ≠ -1 ∧ v ≠ -1.
Proof.
  intros Hqid. unfold add_row. revert nb.
  induction row as [|jid row IH]; intros nb Hnb; [done|].
  simpl. apply IH. case_bool_decide as Hskip; [done|].
  intros u v [?|[[-> ->]|[-> ->]]]%edge_add_pair; [by apply Hnb|split..];
    try done; intros ->; apply Hskip; by left.
Qed.

Lemma sentinel_free_add_rows lims labels qis nb nb' :
  (∀ qi start, qi ∈ qis → lims !! qi = Some start → labels !! start ≠ Some (-1)) →
  (∀ u v, edge nb u v → u ≠ -1 ∧ v ≠ -1) →
  add_rows lims labels qis nb = Ok nb' →
  ∀ u v, edge nb' u v → u ≠ -1 ∧ v ≠ -1.
Proof.
  revert nb. induction qis as [|qi qis IH]; intros nb Hfirst Hnb; simpl.
  - by intros [= <-].
  - assert (∀ qi' start, qi' ∈ qis → lims !! qi' = Some start →
              labels !! start ≠ Some (-1)) as Hfirst'
      by (intros ????; eapply Hfirst; [by right|done]).
    unfold index. destruct (lims !! qi) as [start|] eqn:Hstart; [|done].
    destruct (lims !! S qi) as [stop|]; [|done]. simpl.
    case_decide; [by apply IH|].
    destruct (labels !! start) as [qid|] eqn:Hqid; [|done]. simpl.
    apply IH; [done|]. apply sentinel_free_add_row; [|done].
    intros ->. eapply Hfirst; [left|done|done].
Qed.

Lemma build_neighbors_sentinel_free n lims labels nb :
  (∀ qi start, (qi < n)%nat → lims !! qi = Some start → labels !! start ≠ Some (-1)) →
  build_neighbors n lims labels = Ok nb →
  ∀ u v, edge nb u v → u ≠ -1 ∧ v ≠ -1.
Proof.
  intros Hfirst. apply sentinel_free_add_rows.
  - intros qi start Hqi%elem_of_seq. apply Hfirst. lia.
  - by intros u v (s & ? & _).
Qed.

Lemma build_neighbors_no_self_loop n lims labels nb u :
  build_neighbors n lims labels = Ok nb → ¬ edge nb u u.
Proof. intros Hbuild%build_neighbors_adj_ok. apply Hbuild. Qed.

(** The only exception of the construction loop is an index out of range. *)
Lemma add_rows_raise lims labels qis nb e :
  add_rows lims labels qis nb = Raise e → e = IndexError.
Proof.
  revert nb. induction qis as [|qi qis IH]; intros nb; simpl; [done|].
  unfold index.
  destruct (lims !! qi) as [start|]; simpl; [|by intros [= <-]].
  destruct (lims !! S qi) as [stop|]; simpl; [|by intros [= <-]].
  case_decide; [by apply IH|].
  destruct (labels !! start) as [qid|]; simpl; [by apply IH|by intros [= <-]].
Qed.

Lemma add_rows_total n lims labels qis nb :
  csr_ok n lims labels → (∀ qi, qi ∈ qis → (qi < n)%nat) →
  ∃ nb', add_rows lims labels qis nb = Ok nb'.
Proof.
  intros [Hlen Hmono]. revert nb.
  induction qis as [|qi qis IH]; intros nb Hqis; simpl; [eauto|].
  assert (qi < n)%nat as Hqi by (apply Hqis; left).
  assert (∀ qi', qi' ∈ qis → (qi' < n)%nat) as Hqis' by (intros; apply Hqis; by right).
  destruct (lookup_lt_is_Some_2 lims qi) as [start Hstart]; [lia|].
  destruct (lookup_lt_is_Some_2 lims (S qi)) as [stop Hstop]; [lia|].
  unfold index. rewrite Hstart, Hstop. simpl.
  case_decide as Hse; [by apply IH|].
  specialize (Hmono _ _ _ Hstart Hstop).
  destruct (lookup_lt_is_Some_2 labels start) as [qid Hqid]; [lia|].
  rewrite Hqid. simpl. by apply IH.
Qed.

Lemma build_neighbors_total n lims labels :
  csr_ok n lims labels → ∃ nb, build_neighbors n lims labels = Ok nb.
Proof.
  intros Hok. apply (add_rows_total n); [done|].
  intros qi Hqi%elem_of_seq. lia.
Qed.

(** ** The traversal *)

Lemma pending_mono nb (visited visited' : gset Z) :
  visited ⊆ visited' → (pending nb visited' ≤ pending nb visited)%nat.
Proof.
  intros Hsub. unfold pending. induction nb as [|[k s] nb IH]; csimpl; [done|].
  repeat case_decide; try lia. set_solver.
Qed.

Lemma pending_lt_fuel nb visited : (pending nb visited < dfs_fuel nb)%nat.
Proof.
  unfold pending, dfs_fuel, od_values.
  induction nb as [|[k s] nb IH]; csimpl; [lia|]. case_decide; lia.
Qed.

Lemma pending_visit nb (visited : gset Z) cur s :
  od_get nb cur = Some s → cur ∉ visited →
  (size s + pending nb (visited ∪ {[cur]}) ≤ pending nb visited)%nat.
Proof.
  intros Hget Hcur. induction nb as [|[k s0] nb IH]; [done|].
  simpl in Hget. unfold pending in *. csimpl.
  destruct (decide (cur = k)) as [-> |Hne].
  - injection Hget as ->.
    rewrite (decide_True (P := k ∈ visited ∪ {[k]})) by set_solver.
    rewrite (decide_False (P := k ∈ visited)) by done.
    pose proof (pending_mono nb visited (visited ∪ {[k]})) as Hmono.
    unfold pending in Hmono. specialize (Hmono ltac:(set_solver)). lia.
  - specialize (IH Hget).
    destruct (decide (k ∈ visited)) as [Hk|Hk].
    + rewrite decide_True by set_solver. lia.
    + rewrite decide_False by set_solver. lia.
Qed.

Section traversal_facts.
Context (order : Z → gset Z → gset Z → list Z).
Context (order_perm : ∀ cur visited s, order cur visited s ≡ₚ elements s).
Context (nb : list (Z * gset Z)) (Hnb : adj_ok nb).

Lemma edge_key u v : edge nb u v → is_Some (od_get nb u).
Proof. intros (s & Hs & _). eauto. Qed.

Lemma reach_key root x : is_Some (od_get nb root) → reach nb root x → is_Some (od_get nb x).
Proof.
  intros Hroot Hreach. apply rtc_inv_r in Hreach as [-> |(y & _ & Hyx)]; [done|].
  eapply edge_key, adj_sym; eauto.
Qed.

Lemma reach_sym x y : reach nb x y → reach nb y x.
Proof.
  induction 1 as [|x y z Hxy _ IH]; [done|].
  eapply rtc_r; [done|]. by apply adj_sym.
Qed.

Lemma elem_of_order cur visited s x : x ∈ order cur visited s ↔ x ∈ s.
Proof. by rewrite order_perm, elem_of_elements. Qed.

Lemma length_order cur visited s : length (order cur visited s) = size s.
Proof. by rewrite order_perm. Qed.

Lemma visit_inv_skip visited0 root visited cur stack comp :
  cur ∈ visited →
  visit_inv nb visited0 root visited (cur :: stack) comp →
  visit_inv nb visited0 root visited stack comp.
Proof.
  intros Hcur [Hvis Hnd Hfresh Hstack Hcomp Hfront Hroot Hrf Hrk].
  split; try done.
  - intros x Hx. apply Hstack. by right.
  - intros x y Hx Hxy.
    destruct (Hfront x y Hx Hxy) as [?|[-> |?]%elem_of_cons]; auto.
  - destruct Hroot as [?|[-> |?]%elem_of_cons]; auto.
    left. set_solver.
Qed.

Lemma visit_inv_push visited0 root visited cur stack comp s :
  cur ∉ visited → od_get nb cur = Some s →
  visit_inv nb visited0 root visited (cur :: stack) comp →
  visit_inv nb visited0 root (visited ∪ {[cur]})
    (reverse (order cur (visited ∪ {[cur]}) (s ∖ (visited ∪ {[cur]}))) ++ stack)
    (comp ++ [cur]).
Proof.
  intros Hcur Hs [Hvis Hnd Hfresh Hstack Hcomp Hfront Hroot Hrf Hrk].
  assert (reach nb root cur) as Hrc by (apply Hstack; left).
  split; try done.
  - rewrite list_to_set_app_L. set_solver.
  - apply NoDup_app. split_and!; [done| |apply NoDup_singleton].
    intros x Hx ->%list_elem_of_singleton. set_solver.
  - intros x [Hx| ->%list_elem_of_singleton]%elem_of_app; [auto|set_solver].
  - intros x [Hx|Hx]%elem_of_app.
    + apply elem_of_reverse, elem_of_order in Hx.
      eapply rtc_r; [done|]. exists s. set_solver.
    + apply Hstack. by right.
  - intros x [Hx| ->%list_elem_of_singleton]%elem_of_app; auto.
  - intros x y [Hx| ->%list_elem_of_singleton]%elem_of_app Hxy.
    + destruct (Hfront x y Hx Hxy) as [?|[-> |?]%elem_of_cons].
      * left. set_solver.
      * left. set_solver.
      * right. apply elem_of_app. by right.
    + destruct Hxy as (s' & Hs' & Hy). rewrite Hs in Hs'. injection Hs' as <-.
      destruct (decide (y ∈ visited ∪ {[cur]})) as [?|Hny]; [by left|].
      right. apply elem_of_app. left.
      apply elem_of_reverse, elem_of_order. set_solver.
  - destruct Hroot as [?|[-> |?]%elem_of_cons].
    + left. apply elem_of_app. by left.
    + left. apply elem_of_app. right. by apply list_elem_of_singleton.
    + right. apply elem_of_app. by right.
Qed.

(** With fuel for the entries on the stack and those still to come, the
    loop ends with an empty stack and the invariant. *)
Lemma visit_spec visited0 root fuel : ∀ visited stack comp,
  (length stack + pending nb visited ≤ fuel)%nat →
  visit_inv nb visited0 root visited stack comp →
  ∃ visited' comp',
    visit order fuel nb visited stack comp = Ok (visited', comp') ∧
    visit_inv nb visited0 root visited' [] comp'.
Proof.
  induction fuel as [|fuel IH]; intros visited stack comp Hfuel Hinv.
  - destruct stack as [|cur stack]; [|simpl in Hfuel; lia].
    simpl. eauto.
  - destruct stack as [|cur stack]; [simpl; eauto|].
    simpl in *. destruct (decide (cur ∈ visited)) as [Hcur|Hcur].
    + apply IH; [lia|]. by eapply visit_inv_skip.
    + destruct (reach_key root cur) as [s Hs];
        [apply Hinv | apply Hinv; left|].
      rewrite Hs. apply IH; [|by apply visit_inv_push].
      rewrite length_app, length_reverse, length_order.
      pose proof (pending_visit nb visited cur s Hs Hcur).
      assert (size (s ∖ (visited ∪ {[cur]})) ≤ size s)%nat
        by (apply subseteq_size; set_solver).
      lia.
Qed.

Lemma groups_inv_nil : groups_inv nb ∅ [].
Proof.
  split; simpl; [done|apply NoDup_nil_2|set_solver|].
  by intros comp ?%elem_of_nil.
Qed.

Lemma groups_inv_snoc visited groups node visited' comp :
  groups_inv nb visited groups →
  visit_inv nb visited node visited' [] comp →
  groups_inv nb visited' (groups ++ [comp]).
Proof.
  intros [Hvis Hnd Hclosed Hcomp] [Hvis' Hnd' Hfresh _ Hreach Hfront Hroot Hrf Hrk].
  assert (∀ x, reach nb node x → x ∈ comp) as Hall.
  { apply (rtc_ind_r (λ x, x ∈ comp) node).
    - destruct Hroot as [?|?%elem_of_nil]; done.
    - intros y z Hy Hyz IH.
      destruct (Hfront y z IH Hyz) as [Hz|?%elem_of_nil]; [|done].
      rewrite Hvis' in Hz. apply elem_of_union in Hz as [Hz|Hz].
      + exfalso. apply (Hfresh y IH).
        apply (Hclosed z y Hz). by apply adj_sym.
      + by apply elem_of_list_to_set in Hz. }
  split.
  - rewrite concat_app, list_to_set_app_L. simpl. rewrite app_nil_r.
    by rewrite <-Hvis.
  - rewrite concat_app. simpl. rewrite app_nil_r.
    apply NoDup_app. split_and!; [done| |done].
    intros x Hx Hx'. apply (Hfresh x Hx'). rewrite Hvis.
    by apply elem_of_list_to_set.
  - intros x y Hx Hxy. rewrite Hvis' in Hx.
    apply elem_of_union in Hx as [Hx|Hx].
    + rewrite Hvis'. apply elem_of_union. left. by apply (Hclosed x y).
    + apply elem_of_list_to_set in Hx.
      destruct (Hfront x y Hx Hxy) as [?|?%elem_of_nil]; done.
  - intros comp' [Hc| ->%list_elem_of_singleton]%elem_of_app; [auto|].
    exists node. split; [done|]. intros x. split; auto.
Qed.

Lemma components_from_spec nodes : ∀ visited groups,
  groups_inv nb visited groups →
  (∀ x, x ∈ nodes → is_Some (od_get nb x)) →
  ∃ groups',
    components_from order nb nodes visited groups = Ok groups' ∧
    groups_inv nb (list_to_set (concat groups')) groups' ∧
    (∀ x, x ∈ nodes → x ∈ concat groups') ∧
    (∀ x, x ∈ concat groups → x ∈ concat groups').
Proof.
  induction nodes as [|node nodes IH]; intros visited groups Hinv Hkeys;
    cbn [components_from].
  - exists groups. split_and!; [done| |by intros x ?%elem_of_nil|done].
    by rewrite <-(gi_visited _ _ _ Hinv).
  - assert (∀ x, x ∈ nodes → is_Some (od_get nb x)) as Hkeys'
      by (intros; apply Hkeys; by right).
    destruct (decide (node ∈ visited)) as [Hnode|Hnode].
    + destruct (IH visited groups Hinv Hkeys') as (groups' & Hrun & Hinv' & Hcov & Hold).
      exists groups'. split_and!; [done|done| |done].
      intros x [-> |?]%elem_of_cons; [|auto].
      apply Hold. rewrite (gi_visited _ _ _ Hinv) in Hnode.
      by apply elem_of_list_to_set in Hnode.
    + destruct (visit_spec visited node (dfs_fuel nb) visited [node] [])
        as (visited' & comp & Hrun & Hvinv).
      { pose proof (pending_lt_fuel nb visited). simpl. lia. }
      { split; simpl; try done.
        - set_solver.
        - apply NoDup_nil_2.
        - by intros x ?%elem_of_nil.
        - intros x ->%list_elem_of_singleton. apply rtc_refl.
        - by intros x ?%elem_of_nil.
        - by intros x y ?%elem_of_nil.
        - right. by apply list_elem_of_singleton.
        - apply Hkeys. left. }
      rewrite Hrun. simpl.
      pose proof (groups_inv_snoc _ _ _ _ _ Hinv Hvinv) as Hinv'.
      destruct (IH visited' (groups ++ [comp]) Hinv' Hkeys')
        as (groups' & Hrun' & Hinv'' & Hcov & Hold).
      exists groups'. split_and!; [done|done| |].
      * intros x [-> |?]%elem_of_cons; [|auto].
        apply Hold. rewrite concat_app. apply elem_of_app. right.
        simpl. rewrite app_nil_r.
        destruct (vi_root _ _ _ _ _ _ Hvinv) as [?|?%elem_of_nil]; done.
      * intros x Hx. apply Hold. rewrite concat_app. apply elem_of_app. by left.
Qed.

(** The traversal returns, and returns the connected components of the
    keys: no id twice, every key once, each group the ids linked to one
    of its members. *)
Lemma connected_components_spec :
  ∃ groups,
    connected_components order nb = Ok groups ∧
    NoDup (concat groups) ∧
    (∀ x, x ∈ concat groups ↔ x ∈ od_keys nb) ∧
    (∀ comp, comp ∈ groups →
       ∃ root, is_Some (od_get nb root) ∧ ∀ x, x ∈ comp ↔ reach nb root x).
Proof.
  destruct (components_from_spec (od_keys nb) ∅ [] groups_inv_nil)
    as (groups & Hrun & Hinv & Hcov & _).
  { intros x. by rewrite od_get_keys. }
  exists groups. split_and!; [done|apply Hinv| |apply Hinv].
  intros x. split; [|auto].
  intros (comp & Hcomp & Hx)%elem_of_concat.
  destruct (gi_comp _ _ _ Hinv comp Hcomp) as (root & Hroot & Hiff).
  apply od_get_keys. apply (reach_key root); [done|]. by apply Hiff.
Qed.
End traversal_facts.

(** Two runs over the same adjacency structure, whatever their orders,
    find the same groups up to the order of ids. *)
Lemma components_match nb (groups1 groups2 : list (list Z)) :
  adj_ok nb →
  (∀ comp, comp ∈ groups1 →
     ∃ root, is_Some (od_get nb root) ∧ ∀ x, x ∈ comp ↔ reach nb root x) →
  (∀ comp, comp ∈ groups2 →
     ∃ root, is_Some (od_get nb root) ∧ ∀ x, x ∈ comp ↔ reach nb root x) →
  (∀ x, x ∈ od_keys nb → x ∈ concat groups2) →
  ∀ comp1, comp1 ∈ groups1 →
    ∃ comp2, comp2 ∈ groups2 ∧ list_to_set comp1 =@{gset Z} list_to_set comp2.
Proof.
  intros Hnb H1 H2 Hcov comp1 Hc1.
  destruct (H1 comp1 Hc1) as (root1 & Hkey1 & Hiff1).
  apply od_get_keys, Hcov, elem_of_concat in Hkey1 as (comp2 & Hc2 & Hr1).
  destruct (H2 comp2 Hc2) as (root2 & _ & Hiff2).
  apply Hiff2 in Hr1.
  exists comp2. split; [done|]. apply set_eq. intros x.
  rewrite !elem_of_list_to_set, Hiff1, Hiff2. split; intros Hx.
  - by etrans.
  - etrans; [|done]. by apply reach_sym.
Qed.

Lemma NoDup_concat_lookup {A : Type} (ls : list (list A)) i j li lj x :
  NoDup (concat ls) → ls !! i = Some li → ls !! j = Some lj →
  x ∈ li → x ∈ lj → i = j.
Proof.
  revert i j. induction ls as [|l ls IH]; intros i j Hnd Hi Hj Hxi Hxj; [done|].
  simpl in Hnd. apply NoDup_app in Hnd as (_ & Hdisj & Hnd).
  destruct i as [|i], j as [|j]; simpl in *; simplify_eq; try done.
  - exfalso. apply (Hdisj x Hxi). apply elem_of_concat. exists lj.
    split; [by eapply list_elem_of_lookup_2|done].
  - exfalso. apply (Hdisj x Hxj). apply elem_of_concat. exists li.
    split; [by eapply list_elem_of_lookup_2|done].
  - f_equal. by eapply IH.
Qed.

Lemma NoDup_concat_elem {A : Type} (ls : list (list A)) l :
  NoDup (concat ls) → l ∈ ls → NoDup l.
Proof.
  induction ls as [|l0 ls IH]; simpl; [by intros _ ?%elem_of_nil|].
  intros (? & _ & ?)%NoDup_app [-> | ?]%elem_of_cons; auto.
Qed.

Lemma order_asc_perm cur visited s : order_asc cur visited s ≡ₚ elements s.
Proof. done. Qed.

Lemma order_desc_perm cur visited s : order_desc cur visited s ≡ₚ elements s.
Proof. unfold order_desc. by rewrite reverse_Permutation. Qed.

Lemma sample_neighbors_built :
  build_neighbors 3 sample_lims sample_labels = Ok sample_neighbors.
Proof. vm_compute. reflexivity. Qed.

(** ** The claims on [collect_groups] *)

(** C2. Whenever the adjacency structure is built, the traversal returns,
    and the groups it returns partition the ids that have an edge: such an
    id is in a group, no id is in two groups or twice in one, and an id in
    a group has an edge (an id without edges is in no group). *)
Theorem collect_groups_partition order n lims labels neighbors :
  (∀ cur visited s, order cur visited s ≡ₚ elements s) →
  build_neighbors n lims labels = Ok neighbors →
  ∃ groups,
    collect_groups order n lims labels = Ok groups ∧
    (∀ id other, edge neighbors id other →
       ∃ i comp, groups !! i = Some comp ∧ id ∈ comp) ∧
    (∀ i j ci cj id, groups !! i = Some ci → groups !! j = Some cj →
       id ∈ ci → id ∈ cj → i = j) ∧
    (∀ comp, comp ∈ groups → NoDup comp) ∧
    (∀ comp id, comp ∈ groups → id ∈ comp → ∃ other, edge neighbors id other).
Proof.
  intros Hperm Hbuild.
  pose proof (build_neighbors_adj_ok _ _ _ _ Hbuild) as Hnb.
  destruct (connected_components_spec order Hperm neighbors Hnb)
    as (groups & Hrun & Hnd & Hcov & _).
  exists groups. unfold collect_groups. rewrite Hbuild. simpl.
  split_and!; [done| | | |].
  - intros id other Hedge.
    apply edge_key, od_get_keys, Hcov, elem_of_concat in Hedge as (comp & Hc & Hid).
    apply list_elem_of_lookup in Hc as [i Hi]. eauto.
  - intros i j ci cj id. by apply NoDup_concat_lookup.
  - intros comp. by apply NoDup_concat_elem.
  - intros comp id Hc Hid.
    assert (id ∈ od_keys neighbors) as [s Hs]%od_get_keys
      by (apply Hcov, elem_of_concat; eauto).
    destruct (adj_nonempty _ Hnb id s Hs) as [other Hother].
    exists other, s. done.
Qed.

Lemma collect_groups_partition_witness :
  ∃ groups,
    collect_groups order_asc 3 sample_lims sample_labels = Ok groups ∧
    (∀ id other, edge sample_neighbors id other →
       ∃ i comp, groups !! i = Some comp ∧ id ∈ comp) ∧
    (∀ i j ci cj id, groups !! i = Some ci → groups !! j = Some cj →
       id ∈ ci → id ∈ cj → i = j) ∧
    (∀ comp, comp ∈ groups → NoDup comp) ∧
    (∀ comp id, comp ∈ groups → id ∈ comp →
       ∃ other, edge sample_neighbors id other).
Proof.
  apply (collect_groups_partition order_asc 3 sample_lims sample_labels
           sample_neighbors order_asc_perm).
  vm_compute. reflexivity.
Defined.

(** C8. Two runs on the same search result, each with its own order of
    iterating sets, end alike: both raise the same exception, or both
    return, and the groups are the same set of sets of ids. *)
Theorem collect_groups_deterministic order1 order2 n lims labels :
  (∀ cur visited s, order1 cur visited s ≡ₚ elements s) →
  (∀ cur visited s, order2 cur visited s ≡ₚ elements s) →
  component_sets <$> collect_groups order1 n lims labels =
  component_sets <$> collect_groups order2 n lims labels.
Proof.
  intros Hperm1 Hperm2. unfold collect_groups.
  destruct (build_neighbors n lims labels) as [nb|e] eqn:Hbuild; [|done].
  pose proof (build_neighbors_adj_ok _ _ _ _ Hbuild) as Hnb. simpl.
  destruct (connected_components_spec order1 Hperm1 nb Hnb)
    as (groups1 & -> & _ & Hcov1 & Hcomp1).
  destruct (connected_components_spec order2 Hperm2 nb Hnb)
    as (groups2 & -> & _ & Hcov2 & Hcomp2).
  simpl. f_equal. unfold component_sets. apply set_eq. intros X.
  rewrite !elem_of_list_to_set, !list_elem_of_fmap.
  split; intros (comp & -> & Hc).
  - destruct (components_match nb groups1 groups2 Hnb Hcomp1 Hcomp2
                (λ x, proj2 (Hcov2 x)) comp Hc) as (comp' & ? & ?); eauto.
  - destruct (components_match nb groups2 groups1 Hnb Hcomp2 Hcomp1
                (λ x, proj2 (Hcov1 x)) comp Hc) as (comp' & ? & ?); eauto.
Qed.

Lemma collect_groups_deterministic_witness :
  component_sets <$> collect_groups order_asc 3 sample_lims sample_labels =
  component_sets <$> collect_groups order_desc 3 sample_lims sample_labels.
Proof.
  exact (collect_groups_deterministic order_asc order_desc 3 sample_lims
           sample_labels order_asc_perm order_desc_perm).
Defined.

(** C9. Whenever the adjacency structure is built, the traversal returns
    groups of at least two ids each, all distinct, so the guard
    [len(group) <= 1] of [write_dedup_jsonl] never holds for them. *)
Theorem collect_groups_no_singleton order n lims labels neighbors :
  (∀ cur visited s, order cur visited s ≡ₚ elements s) →
  build_neighbors n lims labels = Ok neighbors →
  ∃ groups,
    collect_groups order n lims labels = Ok groups ∧
    ∀ comp, comp ∈ groups →
      NoDup comp ∧ (2 ≤ length comp)%nat ∧ ¬ (length comp ≤ 1)%nat.
Proof.
  intros Hperm Hbuild.
  pose proof (build_neighbors_adj_ok _ _ _ _ Hbuild) as Hnb.
  destruct (connected_components_spec order Hperm neighbors Hnb)
    as (groups & Hrun & Hnd & _ & Hcomp).
  exists groups. unfold collect_groups. rewrite Hbuild. simpl.
  split; [done|]. intros comp Hc.
  pose proof (NoDup_concat_elem _ _ Hnd Hc) as Hndc.
  destruct (Hcomp comp Hc) as (root & [s Hs] & Hiff).
  destruct (adj_nonempty _ Hnb root s Hs) as [other Hother].
  assert (edge neighbors root other) as Hedge by (by exists s).
  assert (root ∈ comp) as Hroot by (apply Hiff, rtc_refl).
  assert (other ∈ comp) as Hoth by (by apply Hiff, rtc_once).
  assert (root ≠ other) as Hne by (intros <-; by eapply adj_irrefl).
  assert (2 ≤ length comp)%nat; [|split_and!; [done|done|lia]].
  destruct comp as [|a [|b comp]]; simpl; [|exfalso|lia].
  - by apply elem_of_nil in Hroot.
  - apply list_elem_of_singleton in Hroot, Hoth. congruence.
Qed.

Lemma collect_groups_no_singleton_witness :
  ∃ groups,
    collect_groups order_asc 3 sample_lims sample_labels = Ok groups ∧
    ∀ comp, comp ∈ groups →
      NoDup comp ∧ (2 ≤ length comp)%nat ∧ ¬ (length comp ≤ 1)%nat.
Proof.
  apply (collect_groups_no_singleton order_asc 3 sample_lims sample_labels
           sample_neighbors order_asc_perm).
  vm_compute. reflexivity.
Defined.

(** C4, at the input that breaks it. When the first label of a row is the
    sentinel [-1], the row's other labels are linked to [-1]: the test
    [jid == -1] skips the sentinel as a neighbour only, not as [qid]. *)
Theorem sentinel_row_adds_edges :
  ∃ neighbors,
    build_neighbors 1 [0; 2]%nat [-1; 5] = Ok neighbors ∧
    edge neighbors (-1) 5 ∧ edge neighbors 5 (-1) ∧
    collect_groups order_asc 1 [0; 2]%nat [-1; 5] = Ok [[-1; 5]].
Proof.
  eexists. split; [vm_compute; reflexivity|].
  split_and!.
  - eexists. split; [vm_compute; reflexivity|]. set_solver.
  - eexists. split; [vm_compute; reflexivity|]. set_solver.
  - vm_compute. reflexivity.
Qed.

(** ** The pair map *)

Section append_facts.
Context {K A : Type} `{EqDecision K}.
Implicit Types (d : list (K * list A)) (items : list (K * A)) (k : K).

Lemma append_all_app d items1 items2 :
  append_all d (items1 ++ items2) = append_all (append_all d items1) items2.
Proof. apply foldl_app. Qed.

Lemma under_app k items1 items2 :
  under k (items1 ++ items2) = under k items1 ++ under k items2.
Proof. unfold under. by rewrite filter_app, fmap_app. Qed.

Lemma under_nonempty k items : under k items ≠ [] ↔ k ∈ items.*1.
Proof.
  unfold under. induction items as [|[k' x] items IH]; csimpl.
  - split; [done|by intros ?%elem_of_nil].
  - rewrite filter_cons. simpl. rewrite elem_of_cons.
    destruct (decide (k' = k)) as [->|Hne]; csimpl.
    + split; [by left|done].
    + rewrite IH. split; [by right|by intros [?|?]].
Qed.

Lemma entries_of_append d k k' x :
  entries_of (od_append d k x) k' =
  if decide (k = k') then entries_of d k' ++ [x] else entries_of d k'.
Proof.
  unfold entries_of, od_append. rewrite od_get_set.
  by destruct (decide (k = k')) as [->|].
Qed.

Lemma entries_of_append_all d items k :
  entries_of (append_all d items) k = entries_of d k ++ under k items.
Proof.
  revert d. induction items as [|[k' x] items IH]; intros d.
  - unfold under. simpl. by rewrite app_nil_r.
  - change (append_all d ((k', x) :: items))
      with (append_all (od_append d k' x) items).
    rewrite IH, entries_of_append. unfold under. rewrite filter_cons. simpl.
    destruct (decide (k' = k)); csimpl; [by rewrite <-app_assoc|done].
Qed.

Lemma od_keys_append_all d items k :
  k ∈ od_keys (append_all d items) ↔ k ∈ od_keys d ∨ k ∈ items.*1.
Proof.
  revert d. induction items as [|[k' x] items IH]; intros d; csimpl.
  - split; [by left|by intros [?|?%elem_of_nil]].
  - change (append_all d ((k', x) :: items))
      with (append_all (od_append d k' x) items).
    rewrite IH. unfold od_append. rewrite od_keys_set, elem_of_cons.
    destruct (od_get d k') as [l|] eqn:Hget.
    + assert (k' ∈ od_keys d) by (apply od_get_keys; eauto).
      split; [intros [?|?]; auto|intros [?|[->|?]]; auto].
    + rewrite elem_of_app, list_elem_of_singleton.
      split; [intros [[?|?]|?]; auto|intros [?|[?|?]]; auto].
Qed.

Lemma od_keys_append_all_NoDup d items :
  NoDup (od_keys d) → NoDup (od_keys (append_all d items)).
Proof.
  revert d. induction items as [|[k' x] items IH]; intros d Hnd; [done|].
  apply IH. by apply od_keys_set_NoDup.
Qed.

(** A key of the result holds the old list of the key, followed by the
    appended values. *)
Lemma elem_of_append_all d items k l :
  NoDup (od_keys d) → (k, l) ∈ append_all d items →
  l = entries_of d k ++ under k items.
Proof.
  intros Hnd Hin. rewrite <-entries_of_append_all. unfold entries_of.
  erewrite od_get_NoDup; [done| |done]. by apply od_keys_append_all_NoDup.
Qed.
End append_facts.

Lemma add_clip_pairs_append_all pm key clips_a clips_b :
  add_clip_pairs pm key clips_a clips_b =
  append_all pm (clip_pairs_of key clips_a clips_b).
Proof.
  unfold add_clip_pairs, clip_pairs_of. revert pm.
  induction clips_a as [|ca clips_a IH]; intros pm; [done|].
  csimpl. rewrite append_all_app, IH. f_equal.
  generalize pm. clear. induction clips_b as [|cb clips_b IH]; intros pm; [done|].
  csimpl. by rewrite IH.
Qed.

Lemma add_group_append_all lookup pm group :
  add_group lookup pm group = append_all pm (emissions lookup group).
Proof.
  unfold add_group, emissions. repeat case_decide; try done.
  generalize (partition_by_file (mapped_entries lookup group)). intros by_file.
  generalize (file_pairs (od_keys by_file)). intros keys. revert pm.
  induction keys as [|[fid_a fid_b] keys IH]; intros pm; [done|].
  csimpl. rewrite append_all_app, IH. f_equal.
  apply add_clip_pairs_append_all.
Qed.

Lemma accumulate_append_all groups lookup :
  accumulate groups lookup = append_all [] (g ← groups; emissions lookup g).
Proof.
  unfold accumulate. generalize (@nil ((Z * Z) * list ClipPair)).
  induction groups as [|g groups IH]; intros pm; [done|].
  csimpl. by rewrite append_all_app, IH, add_group_append_all.
Qed.

Lemma contribution_under lookup group key :
  contribution lookup group key = under key (emissions lookup group).
Proof.
  unfold contribution. by rewrite add_group_append_all, entries_of_append_all.
Qed.

Lemma under_bind_emissions lookup groups key :
  under key (g ← groups; emissions lookup g) =
  concat ((λ g, contribution lookup g key) <$> groups).
Proof.
  induction groups as [|g groups IH]; csimpl; [done|].
  by rewrite under_app, IH, contribution_under.
Qed.

(** Every accumulated key holds the contributions of all groups, in the
    order of the groups, and at least one sub-record. *)
Lemma accumulate_item groups lookup key clip_pairs :
  (key, clip_pairs) ∈ accumulate groups lookup →
  clip_pairs = concat ((λ g, contribution lookup g key) <$> groups) ∧
  clip_pairs ≠ [].
Proof.
  rewrite accumulate_append_all. intros Hin.
  assert (key ∈ od_keys (append_all [] (g ← groups; emissions lookup g))) as Hkey.
  { apply list_elem_of_fmap. by exists (key, clip_pairs). }
  apply elem_of_append_all in Hin; [|apply NoDup_nil_2].
  rewrite under_bind_emissions in Hin. split; [done|].
  apply od_keys_append_all in Hkey as [?%elem_of_nil|Hkey]; [done|].
  apply under_nonempty in Hkey. by rewrite Hin, <-under_bind_emissions.
Qed.

Lemma accumulate_keys_NoDup groups lookup : NoDup (od_keys (accumulate groups lookup)).
Proof.
  rewrite accumulate_append_all. apply od_keys_append_all_NoDup, NoDup_nil_2.
Qed.

Lemma accumulate_key groups lookup key :
  key ∈ od_keys (accumulate groups lookup) ↔
  ∃ g, g ∈ groups ∧ contribution lookup g key ≠ [].
Proof.
  rewrite accumulate_append_all, od_keys_append_all, <-under_nonempty.
  rewrite under_bind_emissions. split.
  - intros [?%elem_of_nil|Hne]; [done|].
    induction groups as [|g groups IH]; csimpl in *; [done|].
    destruct (contribution lookup g key) eqn:Hc.
    + destruct (IH Hne) as (g' & ? & ?). exists g'. split; [by right|done].
    + exists g. split; [left|by rewrite Hc].
  - intros (g & Hg & Hne). right.
    induction groups as [|g' groups IH]; [by apply elem_of_nil in Hg|].
    csimpl. apply elem_of_cons in Hg as [<-|Hg].
    + destruct (contribution lookup g key); [done|]. done.
    + intros [_ Heq]%app_eq_nil. by apply IH.
Qed.

(** ** The partition by file and the pairs of files *)

Lemma partition_by_file_append_all entries :
  partition_by_file entries = append_all [] ((λ e, (file_id e, e)) <$> entries).
Proof.
  unfold partition_by_file, append_all.
  generalize (@nil (Z * list LookupRecord)).
  induction entries as [|e entries IH]; intros d; [done|]. csimpl. by rewrite IH.
Qed.

Lemma under_keyed {K A : Type} `{EqDecision K} (key : A → K) (k : K) (xs : list A) :
  under k ((λ x, (key x, x)) <$> xs) = filter (λ x, key x = k) xs.
Proof.
  unfold under. induction xs as [|x xs IH]; [done|].
  csimpl. rewrite !filter_cons. simpl. case_decide; csimpl; by rewrite IH.
Qed.

Lemma entries_of_partition entries fid :
  entries_of (partition_by_file entries) fid = filter (λ e, file_id e = fid) entries.
Proof.
  rewrite partition_by_file_append_all, entries_of_append_all. simpl.
  apply under_keyed.
Qed.

Lemma partition_keys_NoDup entries : NoDup (od_keys (partition_by_file entries)).
Proof.
  rewrite partition_by_file_append_all.
  apply od_keys_append_all_NoDup, NoDup_nil_2.
Qed.

Lemma partition_keys entries fid :
  fid ∈ od_keys (partition_by_file entries) ↔ ∃ e, e ∈ entries ∧ file_id e = fid.
Proof.
  rewrite partition_by_file_append_all, od_keys_append_all.
  rewrite <-list_fmap_compose, list_elem_of_fmap. simpl. split.
  - intros [?%elem_of_nil|(e & -> & ?)]; [done|eauto].
  - intros (e & ? & <-). right. eauto.
Qed.

Lemma partition_keys_length entries :
  (length (od_keys (partition_by_file entries)) ≤ length entries)%nat.
Proof.
  rewrite <-(length_fmap file_id entries).
  apply submseteq_length, NoDup_submseteq; [apply partition_keys_NoDup|].
  intros fid (e & ? & <-)%partition_keys. apply list_elem_of_fmap. eauto.
Qed.

Lemma mapped_entries_length lookup group :
  (length (mapped_entries lookup group) ≤ length group)%nat.
Proof.
  unfold mapped_entries. induction group as [|i group IH]; csimpl; [done|].
  destruct (od_get lookup i); simpl; lia.
Qed.

(** [file_pairs] lists the pairs of the two nested index loops. *)
Lemma elem_of_file_pairs l a b :
  (a, b) ∈ file_pairs l ↔
  ∃ i j, (i < j)%nat ∧ l !! i = Some a ∧ l !! j = Some b.
Proof.
  induction l as [|x l IH]; simpl.
  - split; [by intros ?%elem_of_nil|by intros (i & j & _ & ? & _)].
  - rewrite elem_of_app, list_elem_of_fmap, IH. split.
    + intros [(b' & [= -> ->] & [j Hj]%list_elem_of_lookup)|(i & j & ? & ? & ?)].
      * exists 0%nat, (S j). split_and!; [lia|done|done].
      * exists (S i), (S j). split_and!; [lia|done|done].
    + intros (i & j & Hij & Hi & Hj). destruct j as [|j]; [lia|].
      destruct i as [|i]; simpl in *.
      * left. exists b. split; [congruence|]. by eapply list_elem_of_lookup_2.
      * right. exists i, j. split_and!; [lia|done|done].
Qed.

Lemma file_pairs_NoDup l : NoDup l → NoDup (file_pairs l).
Proof.
  induction 1 as [|x l Hx Hnd IH]; simpl; [apply NoDup_nil_2|].
  apply NoDup_app. split_and!; [|intros [a b]|done].
  - apply NoDup_fmap_2; [|done]. intros b b' [= ->]. done.
  - intros (b' & [= -> ->] & _)%list_elem_of_fmap
           (i & j & _ & Hi%list_elem_of_lookup_2 & _)%elem_of_file_pairs.
    done.
Qed.

Lemma file_pairs_short (l : list Z) : (length l ≤ 1)%nat → file_pairs l = [].
Proof. destruct l as [|x [|y l]]; simpl; [done|done|lia]. Qed.

Lemma clip_pairs_of_cross key clips_a clips_b :
  clip_pairs_of key clips_a clips_b = (λ x, (key, x)) <$> cross_pairs clips_a clips_b.
Proof.
  unfold clip_pairs_of, cross_pairs.
  induction clips_a as [|ca clips_a IH]; csimpl; [done|].
  by rewrite fmap_app, IH, <-list_fmap_compose.
Qed.

Lemma under_tagged {K A : Type} `{EqDecision K} (k k' : K) (xs : list A) :
  under k ((λ x, (k', x)) <$> xs) = if decide (k' = k) then xs else [].
Proof.
  unfold under. induction xs as [|x xs IH]; csimpl; [by case_decide|].
  rewrite filter_cons. simpl. case_decide; csimpl; by rewrite IH.
Qed.

Lemma under_bind_tagged {K A : Type} `{EqDecision K} (F : K → list A) (k : K) (ks : list K) :
  NoDup ks →
  under k (key ← ks; (λ x, (key, x)) <$> F key) = if decide (k ∈ ks) then F k else [].
Proof.
  induction 1 as [|k' ks Hk' Hnd IH].
  - destruct (decide (k ∈ [])) as [?%elem_of_nil|]; done.
  - change (under k (((λ x, (k', x)) <$> F k') ++
                     (key ← ks; (λ x, (key, x)) <$> F key)) =
            if decide (k ∈ k' :: ks) then F k else []).
    rewrite under_app, under_tagged, IH.
    destruct (decide (k' = k)) as [->|Hne].
    + rewrite (decide_False (P := k ∈ ks)) by done.
      rewrite (decide_True (P := k ∈ k :: ks)) by left.
      by rewrite app_nil_r.
    + simpl. destruct (decide (k ∈ ks)).
      * rewrite decide_True; [done|by right].
      * rewrite decide_False; [done|]. by intros [?|?]%elem_of_cons.
Qed.

(** What one group contributes under [(a, b)]: the cross product of its
    clips of [a] and of [b] when it meets [a] before [b], else nothing. *)
Lemma contribution_spec lookup group a b :
  contribution lookup group (a, b) =
  if decide (meets_before lookup group a b)
  then cross_pairs (file_entries lookup group a) (file_entries lookup group b)
  else [].
Proof.
  rewrite contribution_under. unfold emissions, meets_before, first_seen.
  pose proof (mapped_entries_length lookup group).
  pose proof (partition_keys_length (mapped_entries lookup group)).
  repeat case_decide; try done;
    try (exfalso; rewrite file_pairs_short in * by lia; by eapply elem_of_nil).
  all: rewrite (list_bind_ext _
         (λ key, (λ x, (key, x)) <$>
            cross_pairs (file_entries lookup group key.1)
                        (file_entries lookup group key.2)) _
         (file_pairs (od_keys (partition_by_file (mapped_entries lookup group)))));
    [|intros key; rewrite clip_pairs_of_cross, !entries_of_partition; done|done].
  all: rewrite (under_bind_tagged
         (λ key, cross_pairs (file_entries lookup group key.1)
                             (file_entries lookup group key.2)))
    by apply file_pairs_NoDup, partition_keys_NoDup.
  - by rewrite decide_True.
  - by rewrite decide_False.
Qed.

Lemma cross_pairs_nonempty clips_a clips_b :
  clips_a ≠ [] → clips_b ≠ [] → cross_pairs clips_a clips_b ≠ [].
Proof. destruct clips_a, clips_b; done. Qed.

Lemma file_entries_nonempty lookup group fid :
  fid ∈ first_seen lookup group → file_entries lookup group fid ≠ [].
Proof.
  intros (e & He & <-)%partition_keys. unfold file_entries.
  intros Hnil. assert (e ∈ filter (λ e0, file_id e0 = file_id e)
    (mapped_entries lookup group)) as Hin by (by apply list_elem_of_filter).
  rewrite Hnil in Hin. by apply elem_of_nil in Hin.
Qed.

Lemma meets_before_contribution lookup group a b :
  meets_before lookup group a b ↔ contribution lookup group (a, b) ≠ [].
Proof.
  rewrite contribution_spec. case_decide as Hmeets; [|done].
  split; [intros _|done].
  apply elem_of_file_pairs in Hmeets as (i & j & _ & Hi & Hj).
  apply cross_pairs_nonempty; apply file_entries_nonempty;
    by eapply list_elem_of_lookup_2.
Qed.
(** ** The records written *)

Lemma each_Forall2 {A B : Type} (f : A → result B) xs ys :
  each f xs = Ok ys → Forall2 (λ x y, f x = Ok y) xs ys.
Proof.
  revert ys. induction xs as [|x xs IH]; intros ys; simpl.
  - intros [= <-]. constructor.
  - destruct (f x) as [y|] eqn:Hfx; [|done]. simpl.
    destruct (each f xs) as [ys'|]; [|done]. simpl.
    intros [= <-]. constructor; auto.
Qed.

Lemma each_total {A B : Type} (f : A → result B) xs :
  (∀ x, x ∈ xs → ∃ y, f x = Ok y) → ∃ ys, each f xs = Ok ys.
Proof.
  induction xs as [|x xs IH]; intros Hf; simpl; [eauto|].
  destruct (Hf x) as [y ->]; [left|].
  destruct IH as [ys ->]; [intros; apply Hf; by right|]. simpl. eauto.
Qed.

Lemma first_or_zero_spec lookup fid :
  first_duration lookup fid (first_or_zero (durations_of lookup fid)).
Proof.
  unfold first_duration, durations_of.
  induction (od_values lookup) as [|e es IH].
  - right. split; [by intros e ?%elem_of_nil|done].
  - rewrite filter_cons. destruct (decide (file_id e = fid)) as [He|He]; csimpl.
    + left. exists [], e, es. split_and!; [done| |done|done].
      by intros e' ?%elem_of_nil.
    + destruct IH as [(before & e0 & after & -> & Hbefore & ? & ?)|[Hnone ?]].
      * left. exists (e :: before), e0, after. split_and!; [done| |done|done].
        intros e' [-> | ?]%elem_of_cons; auto.
      * right. split; [|done]. intros e' [-> | ?]%elem_of_cons; auto.
Qed.

Lemma finalize_spec lookup item r :
  finalize lookup item = Ok r → finalized lookup item r.
Proof.
  destruct item as [[fid_a fid_b] clip_pairs]. unfold finalize, index.
  destruct (clip_pairs !! 0%nat) as [first|] eqn:Hfirst; [|done]. simpl.
  intros [= <-]. exists first. simpl.
  split_and!; try done; apply first_or_zero_spec.
Qed.

Lemma finalize_total lookup key clip_pairs :
  clip_pairs ≠ [] → ∃ r, finalize lookup (key, clip_pairs) = Ok r.
Proof. destruct key, clip_pairs as [|first ?]; [done|]. simpl. eauto. Qed.

(** The writer returns, with one record per item of the pair map, in the
    order of the pair map. *)
Lemma write_dedup_jsonl_spec groups lookup :
  ∃ records,
    write_dedup_jsonl groups lookup = Ok records ∧
    Forall2 (λ item r, finalize lookup item = Ok r)
            (accumulate groups lookup) records.
Proof.
  destruct (each_total (finalize lookup) (accumulate groups lookup)) as [records Hrun].
  { intros [key clip_pairs] Hin. apply finalize_total.
    by eapply accumulate_item. }
  exists records. split; [done|]. by apply each_Forall2.
Qed.

Lemma finalize_key lookup item r : finalize lookup item = Ok r → record_key r = item.1.
Proof. intros (first & _ & ? & _)%finalize_spec. done. Qed.

Lemma records_keys groups lookup records :
  Forall2 (λ item r, finalize lookup item = Ok r) (accumulate groups lookup) records →
  record_key <$> records = od_keys (accumulate groups lookup).
Proof.
  unfold od_keys. induction 1 as [|item r items records Hfin _ IH]; csimpl; [done|].
  by rewrite IH, (finalize_key _ _ _ Hfin).
Qed.



Lemma NoDup_singleton_length {A : Type} (l : list A) x :
  NoDup l → (∀ y, y ∈ l → y = x) → (length l ≤ 1)%nat.
Proof.
  intros Hnd Hall. destruct l as [|y [|z l]]; simpl; [lia|lia|exfalso].
  apply NoDup_cons in Hnd as [Hy _]. apply Hy.
  rewrite (Hall y), (Hall z); [left|right; left|left].
Qed.

(** ** The claims on [write_dedup_jsonl] *)








(** C3. A group with fewer than two mapped entries, or whose mapped entries
    are all of one file, leaves the pair map as it is; the output is the
    same as without the group, and empty when it is the only group. *)
Theorem single_file_group_dropped lookup group :
  (length (mapped_entries lookup group) < 2)%nat ∨
  (∃ fid, Forall (λ e, file_id e = fid) (mapped_entries lookup group)) →
  (∀ pair_map, add_group lookup pair_map group = pair_map) ∧
  (∀ before after,
     write_dedup_jsonl (before ++ group :: after) lookup =
     write_dedup_jsonl (before ++ after) lookup) ∧
  write_dedup_jsonl [group] lookup = Ok [].
Proof.
  intros Hcase.
  assert (∀ pair_map, add_group lookup pair_map group = pair_map) as Hdrop.
  { intros pair_map. unfold add_group. repeat case_decide; try done.
    exfalso. destruct Hcase as [?|[fid Hall]]; [lia|].
    assert (length (od_keys (partition_by_file (mapped_entries lookup group))) ≤ 1)%nat;
      [|lia].
    apply (NoDup_singleton_length _ fid); [apply partition_keys_NoDup|].
    intros fid' (e & He & <-)%partition_keys.
    by eapply Forall_forall in Hall. }
  split_and!; [done| |].
  - intros before after. unfold write_dedup_jsonl, accumulate.
    rewrite !foldl_app. simpl. by rewrite Hdrop.
  - unfold write_dedup_jsonl, accumulate. simpl. by rewrite Hdrop.
Qed.

Lemma single_file_group_dropped_witness :
  (∀ pair_map, add_group sample_lookup pair_map [30; 31] = pair_map) ∧
  (∀ before after,
     write_dedup_jsonl (before ++ [30; 31] :: after) sample_lookup =
     write_dedup_jsonl (before ++ after) sample_lookup) ∧
  write_dedup_jsonl [[30; 31]] sample_lookup = Ok [].
Proof.
  apply (single_file_group_dropped sample_lookup [30; 31]).
  right. exists 5. apply (bool_decide_unpack _). by vm_compute.
Defined.

(** C7. The writer returns one record per key of the pair map, in order.
    The record of a key takes its two file names from the first sub-record
    under the key and each duration from the first value of the lookup
    table, in insertion order, that has the file id of that side, or is
    [0.0] when no value has it; its clips are all the sub-records under the
    key, which are the contributions of all groups in order. Any record
    that [finalize] builds has these fields. *)
Theorem finalized_records groups lookup :
  (∃ records,
     write_dedup_jsonl groups lookup = Ok records ∧
     Forall2 (λ item r,
                finalized lookup item r ∧
                clips r = concat ((λ g, contribution lookup g (record_key r)) <$> groups))
             (accumulate groups lookup) records) ∧
  (∀ item r, finalize lookup item = Ok r → finalized lookup item r).
Proof.
  split; [|apply finalize_spec].
  destruct (write_dedup_jsonl_spec groups lookup) as (records & Hrun & Hall).
  exists records. split; [done|].
  apply Forall2_same_length_lookup. split; [by eapply Forall2_length|].
  intros i [key clip_pairs] r Hitem Hr.
  pose proof (Forall2_lookup_lr _ _ _ _ _ _ Hall Hitem Hr) as Hfin. cbv beta in Hfin.
  apply finalize_spec in Hfin as Hfinal. split; [done|].
  destruct Hfinal as (_ & _ & -> & _ & _ & _ & _ & ->). simpl.
  by apply list_elem_of_lookup_2, accumulate_item in Hitem as [-> _].
Qed.

(** ** The claims on [build_id_lookup] *)

Lemma video_record_cases entry clip fid :
  (¬ unnamed entry ∧ ∃ r, video_record entry clip fid = Ok r) ∨
  (unnamed entry ∧ ∃ field, required_field field ∧
     video_record entry clip fid = Raise (KeyError field)).
Proof.
  unfold video_record, unnamed, required_field.
  destruct (e_file_id entry), (e_file_name entry); simpl;
    [left|right..]; (split; [intuition congruence|eauto]).
Qed.

Lemma image_record_cases entry fid :
  (¬ unnamed entry ∧ ∃ r, image_record entry fid = Ok r) ∨
  (unnamed entry ∧ ∃ field, required_field field ∧
     image_record entry fid = Raise (KeyError field)).
Proof.
  unfold image_record, unnamed, required_field.
  destruct (e_file_id entry), (e_file_name entry); simpl;
    [left|right..]; (split; [intuition congruence|eauto]).
Qed.

Lemma add_clips_skip entry clips lookup :
  ¬ Exists (λ clip, is_Some (c_faiss_id clip)) clips →
  add_clips entry clips lookup = Ok lookup.
Proof.
  induction clips as [|clip clips IH]; intros Hnone; simpl; [done|].
  destruct (c_faiss_id clip) as [fid|] eqn:Hfid.
  - exfalso. apply Hnone. left. rewrite Hfid. eauto.
  - apply IH. intros ?. apply Hnone. by right.
Qed.

Lemma add_clips_named entry clips lookup :
  ¬ unnamed entry → ∃ lookup', add_clips entry clips lookup = Ok lookup'.
Proof.
  intros Hnamed. revert lookup.
  induction clips as [|clip clips IH]; intros lookup; simpl; [eauto|].
  destruct (c_faiss_id clip) as [fid|]; [|apply IH].
  destruct (video_record_cases entry clip fid) as [[_ [r ->]]|[? _]]; [|done].
  simpl. apply IH.
Qed.

Lemma add_clips_unnamed entry clips lookup :
  unnamed entry → Exists (λ clip, is_Some (c_faiss_id clip)) clips →
  ∃ field, required_field field ∧ add_clips entry clips lookup = Raise (KeyError field).
Proof.
  intros Hun Hex. induction clips as [|clip clips IH]; simpl.
  - by apply Exists_nil in Hex.
  - destruct (c_faiss_id clip) as [fid|] eqn:Hfid.
    + destruct (video_record_cases entry clip fid)
        as [[? _]|[_ (field & ? & ->)]]; [done|]. simpl. eauto.
    + apply IH. apply Exists_cons in Hex as [[? Hsome]|?]; [|done].
      rewrite Hfid in Hsome. done.
Qed.

Lemma add_entry_skip entry lookup : ¬ indexed entry → add_entry entry lookup = Ok lookup.
Proof.
  unfold indexed, add_entry. intros Hno. repeat case_decide; try done.
  - apply add_clips_skip. intros ?. apply Hno. by left.
  - destruct (e_faiss_id entry) as [fid|]; [|done].
    exfalso. apply Hno. right. eauto.
Qed.

Lemma add_entry_named entry lookup :
  ¬ unnamed entry → ∃ lookup', add_entry entry lookup = Ok lookup'.
Proof.
  unfold add_entry. intros Hnamed. repeat case_decide; eauto.
  - by apply add_clips_named.
  - destruct (e_faiss_id entry) as [fid|]; [|eauto].
    destruct (image_record_cases entry fid) as [[_ [r ->]]|[? _]]; [|done].
    simpl. eauto.
Qed.

Lemma add_entry_unnamed entry lookup :
  indexed entry → unnamed entry →
  ∃ field, required_field field ∧ add_entry entry lookup = Raise (KeyError field).
Proof.
  unfold indexed, add_entry. intros [[Hv Hex]|[Hi [fid Hfid]]] Hun.
  - rewrite decide_True by done. by apply add_clips_unnamed.
  - rewrite decide_False by congruence. rewrite decide_True by done.
    rewrite Hfid.
    destruct (image_record_cases entry fid)
      as [[? _]|[_ (field & ? & ->)]]; [done|]. simpl. eauto.
Qed.

Lemma add_entry_cases entry lookup :
  (∃ lookup', add_entry entry lookup = Ok lookup') ∨
  (indexed entry ∧ unnamed entry ∧
   ∃ field, required_field field ∧ add_entry entry lookup = Raise (KeyError field)).
Proof.
  destruct (decide (indexed entry)) as [Hidx|Hidx].
  - destruct (decide (unnamed entry)) as [Hun|Hun].
    + right. split_and!; [done|done|]. by apply add_entry_unnamed.
    + left. by apply add_entry_named.
  - left. rewrite add_entry_skip by done. eauto.
Qed.

Lemma add_entries_raise database lookup :
  Exists (λ entry, indexed entry ∧ unnamed entry) database →
  ∃ field, required_field field ∧ add_entries database lookup = Raise (KeyError field).
Proof.
  revert lookup. induction database as [|entry database IH]; intros lookup Hex.
  - by apply Exists_nil in Hex.
  - simpl. destruct (add_entry_cases entry lookup)
      as [[lookup' Hok]|(_ & _ & field & ? & Hraise)].
    + rewrite Hok. simpl. apply IH.
      apply Exists_cons in Hex as [[Hidx Hun]|?]; [|done].
      destruct (add_entry_unnamed entry lookup Hidx Hun) as (? & _ & ?). congruence.
    + rewrite Hraise. simpl. eauto.
Qed.

Lemma add_entries_total database lookup :
  Forall (λ entry, indexed entry → ¬ unnamed entry) database →
  ∃ lookup', add_entries database lookup = Ok lookup'.
Proof.
  revert lookup. induction database as [|entry database IH]; intros lookup Hall;
    simpl; [eauto|].
  apply Forall_cons in Hall as [He Hall].
  destruct (add_entry_cases entry lookup) as [[lookup' ->]|(? & ? & _)]; [|by destruct He].
  simpl. by apply IH.
Qed.

Lemma add_entries_app database1 database2 lookup :
  add_entries (database1 ++ database2) lookup =
  lookup' ← add_entries database1 lookup; add_entries database2 lookup'.
Proof.
  revert lookup. induction database1 as [|entry database1 IH]; intros lookup; simpl; [done|].
  destruct (add_entry entry lookup); simpl; [apply IH|done].
Qed.

(** C5, as stated, fails. An image and a video entry that lack [file_id]
    and [file_name] raise nothing when they have no vector id either: the
    two fields are read only when a record is filed. *)
Lemma missing_names_not_always_fatal :
  e_media_type bare_image = Some "image" ∧
  e_media_type bare_video = Some "video" ∧
  unnamed bare_image ∧ unnamed bare_video ∧
  build_id_lookup [bare_image; bare_video] = Ok [].
Proof. split_and!; [done|done|by left|by left|reflexivity]. Qed.

(** C5, amended. If some video entry with a clip that has a vector id, or
    some image entry that has a vector id, lacks [file_id] or [file_name],
    then [build_id_lookup] raises a [KeyError] for one of the two fields
    and returns no table. An entry without any vector id is skipped without
    error, also when it lacks the two fields: the table is the same as
    without the entry. *)
Theorem missing_names_fatal_when_indexed database :
  Exists (λ entry, indexed entry ∧ unnamed entry) database →
  (∃ field, required_field field ∧
     build_id_lookup database = Raise (KeyError field)) ∧
  (∀ entry before after, ¬ indexed entry →
     build_id_lookup (before ++ entry :: after) = build_id_lookup (before ++ after)).
Proof.
  intros Hex. split; [by apply add_entries_raise|].
  intros entry before after Hskip. unfold build_id_lookup.
  rewrite !add_entries_app. simpl.
  destruct (add_entries before []) as [lookup|]; simpl; [|done].
  by rewrite add_entry_skip.
Qed.

Lemma missing_names_fatal_when_indexed_witness :
  (∃ field, required_field field ∧
     build_id_lookup [bare_image; nameless_image] = Raise (KeyError field)) ∧
  (∀ entry before after, ¬ indexed entry →
     build_id_lookup (before ++ entry :: after) = build_id_lookup (before ++ after)).
Proof.
  apply (missing_names_fatal_when_indexed [bare_image; nameless_image]).
  apply (bool_decide_unpack _). by vm_compute.
Defined.

(** ** The claims on [update_duplicate_flags] *)

Lemma update_entry_cases updates entry :
  (updatable entry ∧ ∃ entry', update_entry updates entry = Ok entry' ∧
     updated updates entry entry') ∨
  (¬ updatable entry ∧ ∃ e, update_entry updates entry = Raise e ∧
     (e = AttributeError ∨ e = TypeError)).
Proof.
  destruct entry as [| | | | | |fields];
    try (right; split; [by intros (? & ? & ? & _)|by eauto]).
  unfold update_entry. fold (file_id_of fields).
  destruct (key_of (file_id_of fields)) as [k|e] eqn:Hkey.
  - left. split; [by exists fields, k|]. simpl.
    destruct (k ≫= (updates !!.)) as [flag|] eqn:Hflag.
    + eexists. split; [done|]. exists fields, k. split_and!; [done|done|].
      rewrite Hflag. eexists. split_and!; [done| | |].
      * apply od_get_set_eq.
      * intros name Hname. by apply od_get_set_ne.
      * apply od_keys_set.
    + eexists. split; [done|]. exists fields, k. split_and!; [done|done|].
      by rewrite Hflag.
  - right. split.
    + intros (fields' & k & [= <-] & Hk). congruence.
    + exists e. split; [done|]. right.
      destruct (file_id_of fields); simpl in Hkey; congruence.
Qed.

Lemma each_update_entry updates entries :
  (Forall updatable entries ∧ ∃ entries',
     each (update_entry updates) entries = Ok entries' ∧
     Forall2 (updated updates) entries entries') ∨
  (¬ Forall updatable entries ∧ ∃ e,
     each (update_entry updates) entries = Raise e ∧
     (e = AttributeError ∨ e = TypeError)).
Proof.
  induction entries as [|entry entries IH]; simpl.
  - left. split; [done|]. exists []. split; [done|constructor].
  - destruct (update_entry_cases updates entry)
      as [[Hup (entry' & -> & Hupd)]|[Hno (e & -> & He)]]; simpl.
    + destruct IH as [[Hall (entries' & -> & Hupds)]|[Hno (e & -> & He)]]; simpl.
      * left. split; [by constructor|]. eexists. split; [done|by constructor].
      * right. split; [by intros [_ ?]%Forall_cons|eauto].
    + right. split; [by intros [? _]%Forall_cons|eauto].
Qed.

Section flags_facts.
Context (json_loads : string → option json) (json_dumps : json → string).
Context (blank encodes : string → bool).

Lemma load_entries_raise lines :
  Exists (λ line, blank line = false ∧ json_loads line = None) lines →
  load_entries json_loads blank lines = Raise JSONDecodeError.
Proof.
  induction lines as [|line lines IH]; intros Hex; simpl.
  - by apply Exists_nil in Hex.
  - destruct (blank line) eqn:Hblank.
    + apply IH. apply Exists_cons in Hex as [[? _]|?]; [congruence|done].
    + destruct (json_loads line) as [entry|] eqn:Hload; [|done].
      rewrite IH; [done|].
      apply Exists_cons in Hex as [[_ ?]|?]; [congruence|done].
Qed.

Lemma load_entries_raise_only lines e :
  load_entries json_loads blank lines = Raise e → e = JSONDecodeError.
Proof.
  induction lines as [|line lines IH]; simpl; [done|].
  destruct (blank line); [done|].
  destruct (json_loads line); [|by intros [= <-]].
  destruct (load_entries json_loads blank lines); simpl; [done|].
  intros [= <-]. by apply IH.
Qed.

(** A decoded entry comes from a line that is not blank. *)
Lemma load_entries_elem_of lines entries entry :
  load_entries json_loads blank lines = Ok entries → entry ∈ entries →
  ∃ line, line ∈ lines ∧ blank line = false ∧ json_loads line = Some entry.
Proof.
  revert entries. induction lines as [|line lines IH]; intros entries; simpl.
  - by intros [= <-] ?%elem_of_nil.
  - destruct (blank line) eqn:Hblank.
    + intros Hload Hin. destruct (IH _ Hload Hin) as (l & ? & ? & ?).
      exists l. split_and!; [by right|done|done].
    + destruct (json_loads line) as [entry0|] eqn:Hline; [|done].
      destruct (load_entries json_loads blank lines) as [entries0|]; [|done]. simpl.
      intros [= <-] [-> | Hin]%elem_of_cons.
      * exists line. split_and!; [left|done|done].
      * destruct (IH _ eq_refl Hin) as (l & ? & ? & ?).
        exists l. split_and!; [by right|done|done].
Qed.

Lemma update_entry_delete updates k entry :
  (∀ fields, entry = JObj fields → key_of (file_id_of fields) ≠ Ok (Some k)) →
  update_entry (delete k updates) entry = update_entry updates entry.
Proof.
  intros Hk. destruct entry as [| | | | | |fields]; try done.
  unfold update_entry. fold (file_id_of fields).
  specialize (Hk fields eq_refl).
  destruct (key_of (file_id_of fields)) as [[k'|]|]; simpl; [|done|done].
  rewrite lookup_delete_ne; [done|congruence].
Qed.

Lemma each_ext {A B : Type} (f g : A → result B) xs :
  (∀ x, x ∈ xs → f x = g x) → each f xs = each g xs.
Proof.
  induction xs as [|x xs IH]; intros Hfg; simpl; [done|].
  rewrite Hfg by left. rewrite IH; [done|]. intros; apply Hfg; by right.
Qed.

(** The write loop writes every line, or stops at the first one that the
    encoder refuses and leaves the lines before it. *)
Lemma write_entries_cases entries :
  (Forall (encodable json_dumps encodes) entries ∧
   write_entries json_dumps encodes entries = (Ok (), line_of json_dumps <$> entries)) ∨
  (∃ before bad after,
     entries = before ++ bad :: after ∧
     Forall (encodable json_dumps encodes) before ∧
     encodes (line_of json_dumps bad) = false ∧
     write_entries json_dumps encodes entries =
       (Raise UnicodeEncodeError, line_of json_dumps <$> before)).
Proof.
  induction entries as [|entry entries IH]; simpl.
  - left. split; [constructor|done].
  - fold (line_of json_dumps entry).
    destruct (encodes (line_of json_dumps entry)) eqn:Henc.
    + destruct IH as [[Hall ->]|(before & bad & after & -> & Hall & Hbad & ->)].
      * left. split; [by constructor|done].
      * right. exists (entry :: before), bad, after.
        split_and!; [done|by constructor|done|done].
    + right. exists [], entry, entries. split_and!; [done|constructor|done|done].
Qed.

Lemma write_entries_Ok entries :
  Forall (encodable json_dumps encodes) entries →
  write_entries json_dumps encodes entries = (Ok (), line_of json_dumps <$> entries).
Proof.
  intros Hall.
  destruct (write_entries_cases entries)
    as [[_ ?]|(before & bad & after & -> & _ & Hbad & _)]; [done|].
  apply Forall_app in Hall as [_ [Hb _]%Forall_cons].
  unfold encodable in Hb. congruence.
Qed.

(** What a call that returns has done. *)
Lemma update_duplicate_flags_Ok file updates entries' file' :
  update_duplicate_flags json_loads json_dumps blank encodes file updates =
    (Ok entries', file') →
  ∃ entries,
    load_entries json_loads blank file = Ok entries ∧
    each (update_entry updates) entries = Ok entries' ∧
    Forall (encodable json_dumps encodes) entries' ∧
    file' = line_of json_dumps <$> entries'.
Proof.
  unfold update_duplicate_flags.
  destruct (load_entries json_loads blank file) as [entries|] eqn:Hload; [|done]. simpl.
  destruct (each (update_entry updates) entries) as [entries0|] eqn:Heach; [|done].
  destruct (write_entries_cases entries0)
    as [[Hall ->]|(before & bad & after & -> & _ & _ & ->)]; simpl; [|done].
  intros [= <- <-]. by exists entries.
Qed.
End flags_facts.

(** C6. If a line that is not blank does not decode, the call raises the
    decoding error and the file keeps its lines. A key of the mapping that
    is the [file_id] of no entry changes nothing: the call ends as it does
    without the key. Blank is what [line.strip()] makes of the line. *)
Theorem parse_failure_writes_nothing json_loads json_dumps blank encodes file updates :
  (Exists (λ line, blank line = false ∧ json_loads line = None) file →
   update_duplicate_flags json_loads json_dumps blank encodes file updates =
     (Raise JSONDecodeError, file)) ∧
  (∀ k,
     (∀ line fields, line ∈ file → blank line = false →
        json_loads line = Some (JObj fields) →
        key_of (file_id_of fields) ≠ Ok (Some k)) →
     update_duplicate_flags json_loads json_dumps blank encodes file (delete k updates) =
     update_duplicate_flags json_loads json_dumps blank encodes file updates).
Proof.
  split.
  - intros Hbad. unfold update_duplicate_flags.
    by rewrite (load_entries_raise _ _ _ Hbad).
  - intros k Hk. unfold update_duplicate_flags.
    destruct (load_entries json_loads blank file) as [entries|e] eqn:Hload; [|done].
    simpl. rewrite (each_ext (update_entry (delete k updates)) (update_entry updates));
      [done|].
    intros entry Hin. apply update_entry_delete. intros fields ->.
    destruct (load_entries_elem_of _ _ _ _ _ Hload Hin) as (line & ? & ? & ?). eauto.
Qed.

Lemma parse_failure_writes_nothing_witness :
  update_duplicate_flags sample_loads sample_dumps utf8_blank utf8_encodes
    [sample_line1; nbsp_line; broken_line; sample_line2] {[1 := true]} =
    (Raise JSONDecodeError, [sample_line1; nbsp_line; broken_line; sample_line2]) ∧
  update_duplicate_flags sample_loads sample_dumps utf8_blank utf8_encodes
    [sample_line1; nbsp_line; sample_line2] (delete 9 {[1 := true; 9 := true]}) =
  update_duplicate_flags sample_loads sample_dumps utf8_blank utf8_encodes
    [sample_line1; nbsp_line; sample_line2] {[1 := true; 9 := true]}.
Proof.
  split.
  - apply (parse_failure_writes_nothing sample_loads sample_dumps utf8_blank
             utf8_encodes [sample_line1; nbsp_line; broken_line; sample_line2]
             {[1 := true]}).
    apply (bool_decide_unpack _). by vm_compute.
  - apply (parse_failure_writes_nothing sample_loads sample_dumps utf8_blank
             utf8_encodes [sample_line1; nbsp_line; sample_line2]
             {[1 := true; 9 := true]}).
    intros line fields
      [-> | [-> | [-> | []%elem_of_nil]%elem_of_cons]%elem_of_cons]%elem_of_cons;
      vm_compute; try discriminate; intros _ [= <-]; discriminate.
Defined.

(** C10, as stated, fails. The three lines below all decode and every entry
    can be updated, but the second entry holds a lone surrogate, which the
    encoder of the file refuses: the call raises after the file was opened
    for writing, and the file is left with the first entry only. *)
Lemma rewrite_can_lose_entries :
  load_entries escape_loads utf8_blank [sample_line1; escaped_line; sample_line2] =
    Ok [sample_entry1; surrogate_entry; sample_entry2] ∧
  update_duplicate_flags escape_loads sample_dumps utf8_blank utf8_encodes
    [sample_line1; escaped_line; sample_line2] {[1 := true]} =
    (Raise UnicodeEncodeError, [line_of sample_dumps flagged_entry1]).
Proof. split; vm_compute; reflexivity. Qed.

(** C10, amended. When every line decodes, the call ends in one of three
    ways. It raises on an entry that is not an object or whose [file_id]
    cannot be hashed, and the file keeps its lines. Or every entry is
    updated as [updated] says, in order: unchanged when its [file_id] is
    not a key of the mapping, and otherwise with every field but
    [duplicate] as before; then either every line is written, the call
    returns the updated entries and the file holds them, one per line and
    in order, or the encoder refuses the line of one entry, the call raises
    and the file holds the updated entries before that one, in order. *)
Theorem update_frame json_loads json_dumps blank encodes file updates entries :
  load_entries json_loads blank file = Ok entries →
  (¬ Forall updatable entries ∧
   ∃ e,
     update_duplicate_flags json_loads json_dumps blank encodes file updates =
       (Raise e, file) ∧
     (e = AttributeError ∨ e = TypeError)) ∨
  (Forall updatable entries ∧
   ∃ entries',
     Forall2 (updated updates) entries entries' ∧
     ((Forall (encodable json_dumps encodes) entries' ∧
       update_duplicate_flags json_loads json_dumps blank encodes file updates =
         (Ok entries', line_of json_dumps <$> entries')) ∨
      (∃ before bad after,
         entries' = before ++ bad :: after ∧
         Forall (encodable json_dumps encodes) before ∧
         encodes (line_of json_dumps bad) = false ∧
         update_duplicate_flags json_loads json_dumps blank encodes file updates =
           (Raise UnicodeEncodeError, line_of json_dumps <$> before)))).
Proof.
  intros Hload. unfold update_duplicate_flags. rewrite Hload. simpl.
  destruct (each_update_entry updates entries)
    as [[Hall (entries' & -> & Hupd)]|[Hno (e & -> & He)]].
  - right. split; [done|]. exists entries'. split; [done|].
    destruct (write_entries_cases json_dumps encodes entries')
      as [[Henc ->]|(before & bad & after & -> & Henc & Hbad & ->)]; simpl.
    + by left.
    + right. by exists before, bad, after.
  - left. split; [done|]. by exists e.
Qed.

Lemma update_frame_witness :
  (¬ Forall updatable [sample_entry1; sample_entry2] ∧
   ∃ e,
     update_duplicate_flags sample_loads sample_dumps utf8_blank utf8_encodes
       [sample_line1; newline; sample_line2] {[1 := true]} =
       (Raise e, [sample_line1; newline; sample_line2]) ∧
     (e = AttributeError ∨ e = TypeError)) ∨
  (Forall updatable [sample_entry1; sample_entry2] ∧
   ∃ entries',
     Forall2 (updated {[1 := true]}) [sample_entry1; sample_entry2] entries' ∧
     ((Forall (encodable sample_dumps utf8_encodes) entries' ∧
       update_duplicate_flags sample_loads sample_dumps utf8_blank utf8_encodes
         [sample_line1; newline; sample_line2] {[1 := true]} =
         (Ok entries', line_of sample_dumps <$> entries')) ∨
      (∃ before bad after,
         entries' = before ++ bad :: after ∧
         Forall (encodable sample_dumps utf8_encodes) before ∧
         utf8_encodes (line_of sample_dumps bad) = false ∧
         update_duplicate_flags sample_loads sample_dumps utf8_blank utf8_encodes
           [sample_line1; newline; sample_line2] {[1 := true]} =
           (Raise UnicodeEncodeError, line_of sample_dumps <$> before)))).
Proof.
  apply (update_frame sample_loads sample_dumps utf8_blank utf8_encodes
           [sample_line1; newline; sample_line2] {[1 := true]}).
  vm_compute. reflexivity.
Defined.

(** The scenario of the flag update: the entry of file 1 is flagged, and
    the file holds the updated entry. *)
Example update_duplicate_flags_sets_flag :
  update_duplicate_flags sample_loads sample_dumps utf8_blank utf8_encodes
    [sample_line1] {[1 := true]} =
  (Ok [JObj [("file_id", JInt 1); ("duplicate", JBool true)]],
   [("{" ++ dq ++ "file_id" ++ dq ++ ": 1, " ++ dq ++ "duplicate" ++ dq ++ ": true}"
     ++ newline)%string]).
Proof. vm_compute. reflexivity. Qed.

(** A line that holds only a no-break space is blank: it is skipped, and
    is gone from the file that the call writes. *)
Example update_duplicate_flags_skips_nbsp :
  utf8_blank nbsp_line = true ∧
  update_duplicate_flags sample_loads sample_dumps utf8_blank utf8_encodes
    [nbsp_line; sample_line2] ∅ =
  (Ok [sample_entry2], [sample_line2]).
Proof. split; vm_compute; reflexivity. Qed.

(** The scenario of the pair aggregation: the component [10, 11, 20] over
    files 1 and 2 gives one record, with the clip pairs (10, 20) and
    (11, 20). *)
Example write_dedup_jsonl_one_component :
  ∃ r,
    write_dedup_jsonl [[10; 11; 20]] sample_lookup = Ok [r] ∧
    record_key r = (1, 2) ∧
    clips r =
      [ {| original := clip_side (sample_clip 10 1 0 "a.mp4");
           duplicate := clip_side (sample_clip 20 2 0 "b.mp4") |};
        {| original := clip_side (sample_clip 11 1 1 "a.mp4");
           duplicate := clip_side (sample_clip 20 2 0 "b.mp4") |} ].
Proof. eexists. split; [vm_compute; reflexivity|]. split; reflexivity. Qed.

Example collect_groups_chain :
  collect_groups order_asc 3 [0; 2; 4; 5]%nat [10; 20; 11; 20; 30] =
  Ok [[10; 20; 11]].
Proof. vm_compute. reflexivity. Qed.

(** * Further properties *)

(** ** [build_id_lookup] *)

Lemma carried_indexed entry : indexed entry ↔ carried entry ≠ [].
Proof.
  unfold indexed, carried. repeat case_decide.
  - split.
    + intros [[_ Hex]|[? _]]; [|congruence].
      apply Exists_exists in Hex as (clip & Hin & [fid Hfid]).
      intros Hnil.
      assert (fid ∈ omap c_faiss_id (default [] (e_clips entry))) as Hfid'
        by (apply list_elem_of_omap; eauto).
      rewrite Hnil in Hfid'. by apply elem_of_nil in Hfid'.
    + intros Hne. left. split; [done|].
      destruct (omap c_faiss_id (default [] (e_clips entry))) as [|fid ?] eqn:Hids;
        [done|].
      assert (fid ∈ omap c_faiss_id (default [] (e_clips entry))) as Hin
        by (rewrite Hids; left).
      apply list_elem_of_omap in Hin as (clip & ? & Hclip).
      apply Exists_exists. exists clip. rewrite Hclip. eauto.
  - split.
    + intros [[? _]|[_ [fid Hfid]]]; [congruence|]. by rewrite Hfid.
    + intros Hne. right. split; [done|]. by destruct (e_faiss_id entry).
  - split; [intros [[? _]|[? _]]; congruence|done].
Qed.

Lemma video_record_faiss_id entry clip fid r :
  video_record entry clip fid = Ok r → faiss_id r = fid ∧ media_type r = "video".
Proof.
  unfold video_record.
  destruct (e_file_id entry), (e_file_name entry); simpl; [|done..].
  by intros [= <-].
Qed.

Lemma image_record_shape entry fid r :
  image_record entry fid = Ok r →
  faiss_id r = fid ∧ media_type r = "image" ∧ clip_idx r = None ∧
  duration r = 0%Q ∧ start_s r = None ∧ end_s r = None.
Proof.
  unfold image_record.
  destruct (e_file_id entry), (e_file_name entry); simpl; [|done..].
  by intros [= <-].
Qed.

(** What one run of the clip loop does to the table at [fid]. *)
Lemma add_clips_get entry clips lookup lookup' fid :
  add_clips entry clips lookup = Ok lookup' →
  ((fid ∉ omap c_faiss_id clips) ∧ od_get lookup' fid = od_get lookup fid) ∨
  (fid ∈ omap c_faiss_id clips ∧
   ∃ clip r, clip ∈ clips ∧ c_faiss_id clip = Some fid ∧
     video_record entry clip fid = Ok r ∧ od_get lookup' fid = Some r).
Proof.
  revert lookup. induction clips as [|clip clips IH]; intros lookup; simpl.
  - intros [= <-]. left. split; [by intros ?%elem_of_nil|done].
  - destruct (c_faiss_id clip) as [fid0|] eqn:Hfid0; csimpl.
    + destruct (video_record entry clip fid0) as [r0|] eqn:Hrec; [|done]. simpl.
      intros Hrun. destruct (IH _ Hrun) as [[Hnot Hget]|(Hin & c & r & ? & ? & ? & ?)].
      * destruct (decide (fid0 = fid)) as [->|Hne].
        -- right. split; [left|]. exists clip, r0.
           split_and!; [left|done|done|]. by rewrite Hget, od_get_set_eq.
        -- left. split; [by intros [?|?]%elem_of_cons|].
           by rewrite Hget, od_get_set_ne.
      * right. split; [by right|]. exists c, r. split_and!; [by right|done..].
    + intros Hrun. destruct (IH _ Hrun) as [?|(Hin & c & r & ? & ? & ? & ?)]; [by left|].
      right. split; [done|]. exists c, r. split_and!; [by right|done..].
Qed.

Lemma add_clips_keys entry clips lookup lookup' fid :
  add_clips entry clips lookup = Ok lookup' →
  (fid ∈ od_keys lookup' ↔ fid ∈ od_keys lookup ∨ fid ∈ omap c_faiss_id clips).
Proof.
  revert lookup. induction clips as [|clip clips IH]; intros lookup; simpl.
  - intros [= <-]. split; [by left|by intros [?|?%elem_of_nil]].
  - destruct (c_faiss_id clip) as [fid0|]; csimpl; [|apply IH].
    destruct (video_record entry clip fid0) as [r0|]; [|done]. simpl.
    intros Hrun. rewrite (IH _ Hrun), elem_of_cons, <-!od_get_keys, od_get_set.
    destruct (decide (fid0 = fid)) as [->|]; [|naive_solver].
    split; [intros _; right; by left|intros _; left; eauto].
Qed.

Lemma add_clips_NoDup entry clips lookup lookup' :
  add_clips entry clips lookup = Ok lookup' →
  NoDup (od_keys lookup) → NoDup (od_keys lookup').
Proof.
  revert lookup. induction clips as [|clip clips IH]; intros lookup; simpl.
  - by intros [= <-].
  - destruct (c_faiss_id clip) as [fid0|]; csimpl; [|apply IH].
    destruct (video_record entry clip fid0) as [r0|]; [|done]. simpl.
    intros Hrun Hnd. apply (IH _ Hrun). by apply od_keys_set_NoDup.
Qed.

(** What one turn of the entry loop does to the table at [fid]. *)
Lemma add_entry_get entry lookup lookup' fid :
  add_entry entry lookup = Ok lookup' →
  ((fid ∉ carried entry) ∧ od_get lookup' fid = od_get lookup fid) ∨
  (fid ∈ carried entry ∧ ∃ r, files entry fid r ∧ od_get lookup' fid = Some r).
Proof.
  unfold add_entry, carried, files. repeat case_decide.
  - intros Hrun.
    destruct (add_clips_get _ _ _ _ fid Hrun) as [?|(? & c & r & ? & ? & ? & ?)];
      [by left|].
    right. split; [done|]. exists r. split; [|done]. left. eauto 6.
  - destruct (e_faiss_id entry) as [fid0|]; simpl.
    + destruct (image_record entry fid0) as [r0|] eqn:Hrec; [|done]. simpl.
      intros [= <-]. rewrite od_get_set.
      destruct (decide (fid0 = fid)) as [->|Hne].
      * right. split; [left|]. exists r0. split; [|done]. right. eauto.
      * left. split; [|done]. by intros ?%list_elem_of_singleton.
    + intros [= <-]. left. split; [by intros ?%elem_of_nil|done].
  - intros [= <-]. left. split; [by intros ?%elem_of_nil|done].
Qed.

Lemma add_entry_keys entry lookup lookup' fid :
  add_entry entry lookup = Ok lookup' →
  (fid ∈ od_keys lookup' ↔ fid ∈ od_keys lookup ∨ fid ∈ carried entry).
Proof.
  unfold add_entry, carried. repeat case_decide.
  - apply add_clips_keys.
  - destruct (e_faiss_id entry) as [fid0|]; simpl.
    + destruct (image_record entry fid0) as [r0|]; [|done]. simpl.
      intros [= <-]. rewrite list_elem_of_singleton, <-!od_get_keys, od_get_set.
      destruct (decide (fid0 = fid)) as [->|]; [|naive_solver].
      split; [by right|eauto].
    + intros [= <-]. split; [by left|by intros [?|?%elem_of_nil]].
  - intros [= <-]. split; [by left|by intros [?|?%elem_of_nil]].
Qed.

Lemma add_entry_NoDup entry lookup lookup' :
  add_entry entry lookup = Ok lookup' →
  NoDup (od_keys lookup) → NoDup (od_keys lookup').
Proof.
  unfold add_entry. repeat case_decide.
  - apply add_clips_NoDup.
  - destruct (e_faiss_id entry) as [fid0|]; simpl; [|by intros [= <-]].
    destruct (image_record entry fid0) as [r0|]; [|done]. simpl.
    intros [= <-] ?. by apply od_keys_set_NoDup.
  - by intros [= <-].
Qed.

Lemma add_entries_keep database lookup lookup' fid :
  add_entries database lookup = Ok lookup' →
  (∀ entry, entry ∈ database → fid ∉ carried entry) →
  od_get lookup' fid = od_get lookup fid.
Proof.
  revert lookup. induction database as [|entry database IH]; intros lookup; simpl.
  - by intros [= <-].
  - destruct (add_entry entry lookup) as [lookup1|] eqn:Hadd; [|done]. simpl.
    intros Hrun Hnone. rewrite (IH _ Hrun) by (intros; apply Hnone; by right).
    destruct (add_entry_get _ _ _ fid Hadd) as [[_ ?]|[Hin _]]; [done|].
    exfalso. by apply (Hnone entry); [left|].
Qed.

Lemma add_entries_keys database lookup lookup' fid :
  add_entries database lookup = Ok lookup' →
  (fid ∈ od_keys lookup' ↔
   fid ∈ od_keys lookup ∨ ∃ entry, entry ∈ database ∧ fid ∈ carried entry).
Proof.
  revert lookup. induction database as [|entry database IH]; intros lookup; simpl.
  - intros [= <-]. split; [by left|]. by intros [?|(? & ?%elem_of_nil & _)].
  - destruct (add_entry entry lookup) as [lookup1|] eqn:Hadd; [|done]. simpl.
    intros Hrun. rewrite (IH _ Hrun), (add_entry_keys _ _ _ _ Hadd). split.
    + intros [[?|?]|(e & ? & ?)]; [by left|right..].
      * exists entry. split; [left|done].
      * exists e. split; [by right|done].
    + intros [?|(e & [-> | ?]%elem_of_cons & ?)]; [by do 2 left|left; by right|].
      right. eauto.
Qed.

Lemma add_entries_NoDup database lookup lookup' :
  add_entries database lookup = Ok lookup' →
  NoDup (od_keys lookup) → NoDup (od_keys lookup').
Proof.
  revert lookup. induction database as [|entry database IH]; intros lookup; simpl.
  - by intros [= <-].
  - destruct (add_entry entry lookup) as [lookup1|] eqn:Hadd; [|done]. simpl.
    intros Hrun Hnd. apply (IH _ Hrun). by eapply add_entry_NoDup.
Qed.

Lemma add_entries_Ok_app database1 database2 lookup lookup' :
  add_entries (database1 ++ database2) lookup = Ok lookup' →
  ∃ lookup1, add_entries database1 lookup = Ok lookup1 ∧
             add_entries database2 lookup1 = Ok lookup'.
Proof.
  rewrite add_entries_app.
  destruct (add_entries database1 lookup) as [lookup1|]; [|done]. simpl. eauto.
Qed.

Lemma files_fields entry fid r :
  files entry fid r →
  faiss_id r = fid ∧ e_file_id entry = Some (file_id r) ∧
  e_file_name entry = Some (file_name r) ∧
  e_media_type entry = Some (media_type r) ∧
  (media_type r = "image" →
     clip_idx r = None ∧ duration r = 0%Q ∧ start_s r = None ∧ end_s r = None).
Proof.
  intros [(Hv & clip & _ & _ & Hrec)|(Hi & _ & Hrec)].
  - unfold video_record in Hrec.
    destruct (e_file_id entry), (e_file_name entry); simpl in Hrec; [|done..].
    injection Hrec as <-. simpl. split_and!; done.
  - unfold image_record in Hrec.
    destruct (e_file_id entry), (e_file_name entry); simpl in Hrec; [|done..].
    injection Hrec as <-. simpl. split_and!; done.
Qed.

(** The last entry that carries [fid] decides the record under [fid]. *)
Lemma add_entries_last before entry after lookup lookup' fid :
  add_entries (before ++ entry :: after) lookup = Ok lookup' →
  fid ∈ carried entry → (∀ e, e ∈ after → fid ∉ carried e) →
  ∃ r, od_get lookup' fid = Some r ∧ files entry fid r.
Proof.
  intros (lookup1 & _ & Hrun)%add_entries_Ok_app Hin Hafter. simpl in Hrun.
  destruct (add_entry entry lookup1) as [lookup2|] eqn:Hadd; [|done]. simpl in Hrun.
  rewrite (add_entries_keep _ _ _ fid Hrun Hafter).
  destruct (add_entry_get _ _ _ fid Hadd) as [[Hnot _]|[_ (r & ? & ?)]];
    [by destruct Hnot|eauto].
Qed.

Lemma split_at_last {A : Type} (P : A → Prop) `{∀ x, Decision (P x)} (l : list A) :
  Exists P l →
  ∃ before x after, l = before ++ x :: after ∧ P x ∧ ∀ y, y ∈ after → ¬ P y.
Proof.
  induction l as [|x l IH]; intros Hex; [by apply Exists_nil in Hex|].
  destruct (decide (Exists P l)) as [Hl|Hl].
  - destruct (IH Hl) as (before & y & after & -> & ? & ?).
    by exists (x :: before), y, after.
  - exists [], x, l. split_and!; [done| |].
    + apply Exists_cons in Hex as [?|?]; done.
    + intros y Hy HPy. apply Hl, Exists_exists. eauto.
Qed.

(** X1. A [KeyError] of [build_id_lookup] is about [file_id] or
    [file_name], and then some entry that has a vector id to file a record
    under lacks [file_id] or [file_name]. *)
Theorem build_id_lookup_key_error database field :
  build_id_lookup database = Raise (KeyError field) →
  required_field field ∧
  Exists (λ entry, indexed entry ∧ unnamed entry) database.
Proof.
  unfold build_id_lookup. intros Hraise.
  destruct (decide (Exists (λ entry, indexed entry ∧ unnamed entry) database))
    as [Hbad|Hgood].
  - split; [|done].
    destruct (add_entries_raise database [] Hbad) as (field' & ? & Hraise').
    congruence.
  - exfalso.
    assert (Forall (λ entry, indexed entry → ¬ unnamed entry) database) as Hall.
    { apply Forall_forall. intros entry Hin ? ?. apply Hgood, Exists_exists. eauto. }
    destruct (add_entries_total database [] Hall) as [lookup Hok]. congruence.
Qed.

Lemma build_id_lookup_key_error_witness :
  required_field "file_name" ∧
  Exists (λ entry, indexed entry ∧ unnamed entry) [bare_image; nameless_image].
Proof.
  apply (build_id_lookup_key_error [bare_image; nameless_image] "file_name").
  vm_compute. reflexivity.
Defined.

(** X2. The keys of the table are the vector ids of the indexed clips and
    images of the database, each once. *)
Theorem build_id_lookup_keys database lookup :
  build_id_lookup database = Ok lookup →
  NoDup (od_keys lookup) ∧
  ∀ fid, fid ∈ od_keys lookup ↔ ∃ entry, entry ∈ database ∧ fid ∈ carried entry.
Proof.
  intros Hrun. split.
  - eapply add_entries_NoDup; [done|apply NoDup_nil_2].
  - intros fid. unfold build_id_lookup in Hrun.
    rewrite (add_entries_keys _ _ _ fid Hrun). split; [|by right].
    by intros [?%elem_of_nil|?].
Qed.

Lemma build_id_lookup_keys_witness :
  NoDup (od_keys sample_table) ∧
  ∀ fid, fid ∈ od_keys sample_table ↔
    ∃ entry, entry ∈ [sample_video; sample_image] ∧ fid ∈ carried entry.
Proof.
  apply (build_id_lookup_keys [sample_video; sample_image] sample_table).
  vm_compute. reflexivity.
Defined.

(** X3. When two entries carry the same vector id, the later one wins: the
    record under a vector id is the one filed for the last entry of the
    database that carries it, with that entry's file id and file name. *)
Theorem build_id_lookup_last_wins before entry after lookup fid :
  build_id_lookup (before ++ entry :: after) = Ok lookup →
  fid ∈ carried entry →
  (∀ e, e ∈ after → fid ∉ carried e) →
  ∃ r, od_get lookup fid = Some r ∧ files entry fid r ∧
       faiss_id r = fid ∧ e_file_id entry = Some (file_id r) ∧
       e_file_name entry = Some (file_name r) ∧
       e_media_type entry = Some (media_type r).
Proof.
  intros Hrun Hin Hafter.
  destruct (add_entries_last _ _ _ _ _ fid Hrun Hin Hafter) as (r & Hget & Hfiles).
  exists r. split_and!; [done|done|apply (files_fields _ _ _ Hfiles)..].
Qed.

Lemma build_id_lookup_last_wins_witness :
  ∃ r, od_get sample_table 11 = Some r ∧ files sample_image 11 r ∧
       faiss_id r = 11 ∧ e_file_id sample_image = Some (file_id r) ∧
       e_file_name sample_image = Some (file_name r) ∧
       e_media_type sample_image = Some (media_type r).
Proof.
  apply (build_id_lookup_last_wins [sample_video] sample_image [] sample_table 11).
  - vm_compute. reflexivity.
  - apply (bool_decide_unpack _). by vm_compute.
  - by intros e ?%elem_of_nil.
Defined.

(** X4. Every record of the table is stored under its own vector id and
    was filed for an entry of the database, whose file id, file name and
    media type it has; the record of an image has no clip index, no start
    and end, and duration [0.0]. *)
Theorem build_id_lookup_records database lookup fid r :
  build_id_lookup database = Ok lookup →
  od_get lookup fid = Some r →
  ∃ entry, entry ∈ database ∧ files entry fid r ∧
    faiss_id r = fid ∧ e_file_id entry = Some (file_id r) ∧
    e_file_name entry = Some (file_name r) ∧
    e_media_type entry = Some (media_type r) ∧
    (media_type r = "image" →
       clip_idx r = None ∧ duration r = 0%Q ∧ start_s r = None ∧ end_s r = None).
Proof.
  intros Hrun Hget. unfold build_id_lookup in Hrun.
  assert (fid ∈ od_keys lookup) as Hkey by (apply od_get_keys; eauto).
  apply (add_entries_keys _ _ _ fid Hrun) in Hkey as [?%elem_of_nil|Hex]; [done|].
  apply Exists_exists, (split_at_last (λ e, fid ∈ carried e)) in Hex
    as (before & entry & after & -> & Hin & Hafter).
  destruct (add_entries_last _ _ _ _ _ fid Hrun Hin Hafter) as (r' & Hget' & Hfiles).
  assert (r' = r) as -> by congruence.
  exists entry. split; [apply elem_of_app; right; left|].
  split; [done|]. apply (files_fields _ _ _ Hfiles).
Qed.

Lemma build_id_lookup_records_witness :
  ∃ entry, entry ∈ [sample_video; sample_image] ∧
    files entry 10 sample_first_record ∧
    faiss_id sample_first_record = 10 ∧
    e_file_id entry = Some (file_id sample_first_record) ∧
    e_file_name entry = Some (file_name sample_first_record) ∧
    e_media_type entry = Some (media_type sample_first_record) ∧
    (media_type sample_first_record = "image" →
       clip_idx sample_first_record = None ∧
       duration sample_first_record = 0%Q ∧
       start_s sample_first_record = None ∧
       end_s sample_first_record = None).
Proof.
  apply (build_id_lookup_records [sample_video; sample_image] sample_table 10).
  - vm_compute. reflexivity.
  - vm_compute. reflexivity.
Defined.

(** ** [collect_groups] *)

Lemma edge_add_row nb qid row u v :
  edge (add_row nb qid row) u v ↔
  edge nb u v ∨
  ∃ jid, jid ∈ row ∧ jid ≠ -1 ∧ jid ≠ qid ∧
    ((u = qid ∧ v = jid) ∨ (u = jid ∧ v = qid)).
Proof.
  unfold add_row. revert nb. induction row as [|jid row IH]; intros nb.
  - simpl. split; [by left|]. by intros [?|(? & ?%elem_of_nil & _)].
  - simpl. rewrite IH. case_bool_decide as Hskip.
    + split.
      * intros [?|(j & ? & ?)]; [by left|]. right. exists j. split; [by right|done].
      * intros [?|(j & [-> | ?]%elem_of_cons & Hj1 & Hj2 & ?)]; [by left| |].
        -- destruct Hskip; done.
        -- right. exists j. done.
    + rewrite edge_add_pair. split.
      * intros [[?|Hnew]|(j & ? & ?)]; [by left| |].
        -- right. exists jid. split_and!; [left| | |done];
             intros ?; apply Hskip; auto.
        -- right. exists j. split; [by right|done].
      * intros [?|(j & [-> | ?]%elem_of_cons & ? & ? & ?)];
          [by do 2 left|left; by right|].
        right. exists j. done.
Qed.

Lemma edge_add_rows lims labels qis nb nb' u v :
  add_rows lims labels qis nb = Ok nb' →
  (edge nb' u v ↔
   edge nb u v ∨ ∃ qi, qi ∈ qis ∧ row_link lims labels qi u v).
Proof.
  revert nb. induction qis as [|qi qis IH]; intros nb; simpl.
  - intros [= <-]. split; [by left|]. by intros [?|(? & ?%elem_of_nil & _)].
  - unfold index. destruct (lims !! qi) as [start|] eqn:Hstart; [|done].
    destruct (lims !! S qi) as [stop|] eqn:Hstop; [|done]. simpl.
    case_decide as Hse.
    + intros Hrun. rewrite (IH _ Hrun). split.
      * intros [?|(q & ? & ?)]; [by left|]. right. exists q. split; [by right|done].
      * intros [?|(q & [-> | ?]%elem_of_cons & Hlink)]; [by left| |right; eauto].
        destruct Hlink as (? & ? & ? & ? & ? & ? & ? & _). congruence.
    + destruct (labels !! start) as [qid|] eqn:Hqid; [|done]. simpl.
      intros Hrun. rewrite (IH _ Hrun), edge_add_row. split.
      * intros [[?|(jid & ? & ? & ? & ?)]|(q & ? & ?)]; [by left| |].
        -- right. exists qi. split; [left|]. exists start, stop, qid, jid. done.
        -- right. exists q. split; [by right|done].
      * intros [?|(q & [-> | ?]%elem_of_cons & Hlink)];
          [by do 2 left| |right; eauto].
        left. right.
        destruct Hlink as (start' & stop' & qid' & jid & ? & ? & _ & ? & ? & ? & ? & ?).
        assert (start' = start) as -> by congruence.
        assert (stop' = stop) as -> by congruence.
        assert (qid' = qid) as -> by congruence.
        exists jid. done.
Qed.

Lemma build_neighbors_edge n lims labels nb u v :
  build_neighbors n lims labels = Ok nb →
  (edge nb u v ↔ row_edge n lims labels u v).
Proof.
  intros Hrun. rewrite (edge_add_rows _ _ _ _ _ u v Hrun). unfold row_edge. split.
  - intros [(s & ? & _)|(qi & Hqi%elem_of_seq & ?)]; [done|].
    exists qi. split; [lia|done].
  - intros (qi & ? & ?). right. exists qi. split; [|done].
    apply elem_of_seq. lia.
Qed.

Lemma collect_groups_raise order n lims labels e :
  (∀ cur visited s, order cur visited s ≡ₚ elements s) →
  collect_groups order n lims labels = Raise e → e = IndexError.
Proof.
  intros Hperm. unfold collect_groups.
  destruct (build_neighbors n lims labels) as [nb|e'] eqn:Hbuild; simpl.
  - pose proof (build_neighbors_adj_ok _ _ _ _ Hbuild) as Hnb.
    destruct (connected_components_spec order Hperm nb Hnb) as (groups & -> & _).
    done.
  - intros [= <-]. by eapply add_rows_raise.
Qed.

(** X5. The adjacency structure holds the links of the rows and nothing
    else: two ids are neighbours exactly when, in some row, one is the
    first label and the other a later label that is neither [-1] nor the
    first label. *)
Theorem neighbors_are_row_links n lims labels neighbors :
  build_neighbors n lims labels = Ok neighbors →
  ∀ u v, edge neighbors u v ↔ row_edge n lims labels u v.
Proof. intros Hrun u v. by apply build_neighbors_edge. Qed.

Lemma neighbors_are_row_links_witness :
  edge sample_neighbors 20 11 ↔ row_edge 3 sample_lims sample_labels 20 11.
Proof.
  apply (neighbors_are_row_links 3 sample_lims sample_labels sample_neighbors).
  vm_compute. reflexivity.
Defined.

Lemma rtc_iff {A : Type} (R S : relation A) :
  (∀ x y, R x y ↔ S x y) → ∀ x y, rtc R x y ↔ rtc S x y.
Proof.
  intros HRS x y. split; apply rtc_subrel; intros ? ?; apply HRS.
Qed.

(** X6. The groups are the connected components of the row links: two ids
    are in one group exactly when the first has a link and a chain of row
    links leads from it to the second. *)
Theorem collect_groups_components order n lims labels neighbors :
  (∀ cur visited s, order cur visited s ≡ₚ elements s) →
  build_neighbors n lims labels = Ok neighbors →
  ∃ groups,
    collect_groups order n lims labels = Ok groups ∧
    ∀ x y,
      (∃ comp, comp ∈ groups ∧ x ∈ comp ∧ y ∈ comp) ↔
      ((∃ z, row_edge n lims labels x z) ∧ rtc (row_edge n lims labels) x y).
Proof.
  intros Hperm Hbuild.
  pose proof (build_neighbors_adj_ok _ _ _ _ Hbuild) as Hnb.
  destruct (connected_components_spec order Hperm neighbors Hnb)
    as (groups & Hrun & _ & Hcov & Hcomp).
  exists groups. unfold collect_groups. rewrite Hbuild. simpl.
  split; [done|]. intros x y.
  rewrite <-(rtc_iff _ _ (λ u v, build_neighbors_edge _ _ _ _ u v Hbuild) x y).
  assert ((∃ z, row_edge n lims labels x z) ↔ x ∈ od_keys neighbors) as ->.
  { rewrite <-od_get_keys. split.
    - intros [z Hz]. apply (build_neighbors_edge _ _ _ _ x z Hbuild) in Hz.
      by eapply edge_key.
    - intros [s Hs]. destruct (adj_nonempty _ Hnb x s Hs) as [z Hz].
      exists z. apply (build_neighbors_edge _ _ _ _ x z Hbuild). by exists s. }
  split.
  - intros (comp & Hc & Hx & Hy).
    destruct (Hcomp comp Hc) as (root & _ & Hiff). split.
    + apply Hcov, elem_of_concat. eauto.
    + apply Hiff in Hx, Hy. etrans; [|exact Hy]. by apply reach_sym.
  - intros [Hkey Hxy].
    apply Hcov, elem_of_concat in Hkey as (comp & Hc & Hx).
    exists comp. split_and!; [done|done|].
    destruct (Hcomp comp Hc) as (root & _ & Hiff).
    apply Hiff. etrans; [by apply Hiff|done].
Qed.

Lemma collect_groups_components_witness :
  ∃ groups,
    collect_groups order_asc 3 sample_lims sample_labels = Ok groups ∧
    ∀ x y,
      (∃ comp, comp ∈ groups ∧ x ∈ comp ∧ y ∈ comp) ↔
      ((∃ z, row_edge 3 sample_lims sample_labels x z) ∧
       rtc (row_edge 3 sample_lims sample_labels) x y).
Proof.
  apply (collect_groups_components order_asc 3 sample_lims sample_labels
           sample_neighbors order_asc_perm).
  vm_compute. reflexivity.
Defined.

(** X7. On a well-formed search result [collect_groups] returns; on any
    search result the only exception it raises is an [IndexError] of the
    row loop. The traversal itself never fails: it looks up only ids that
    are keys, so the dict is not changed while it is iterated. *)
Theorem collect_groups_only_index_error order n lims labels :
  (∀ cur visited s, order cur visited s ≡ₚ elements s) →
  (csr_ok n lims labels → ∃ groups, collect_groups order n lims labels = Ok groups) ∧
  (∀ e, collect_groups order n lims labels = Raise e → e = IndexError).
Proof.
  intros Hperm. split; [|intros e; by apply collect_groups_raise].
  intros Hcsr. destruct (build_neighbors_total _ _ _ Hcsr) as [nb Hbuild].
  pose proof (build_neighbors_adj_ok _ _ _ _ Hbuild) as Hnb.
  destruct (connected_components_spec order Hperm nb Hnb) as (groups & Hrun & _).
  exists groups. unfold collect_groups. by rewrite Hbuild.
Qed.

Lemma collect_groups_only_index_error_witness :
  (csr_ok 3 sample_lims sample_labels →
   ∃ groups, collect_groups order_desc 3 sample_lims sample_labels = Ok groups) ∧
  (∀ e, collect_groups order_desc 3 sample_lims sample_labels = Raise e →
     e = IndexError).
Proof.
  exact (collect_groups_only_index_error order_desc 3 sample_lims sample_labels
           order_desc_perm).
Defined.

(** X8. When no row starts with the sentinel, the sentinel is in no
    group. *)
Theorem collect_groups_sentinel_free order n lims labels neighbors :
  (∀ cur visited s, order cur visited s ≡ₚ elements s) →
  first_labels_real n lims labels →
  build_neighbors n lims labels = Ok neighbors →
  ∃ groups,
    collect_groups order n lims labels = Ok groups ∧
    ∀ comp, comp ∈ groups → -1 ∉ comp.
Proof.
  intros Hperm Hfirst Hbuild.
  pose proof (build_neighbors_adj_ok _ _ _ _ Hbuild) as Hnb.
  destruct (connected_components_spec order Hperm neighbors Hnb)
    as (groups & Hrun & _ & Hcov & _).
  exists groups. unfold collect_groups. rewrite Hbuild. simpl.
  split; [done|]. intros comp Hc Hin.
  assert (-1 ∈ od_keys neighbors) as [s Hs]%od_get_keys
    by (apply Hcov, elem_of_concat; eauto).
  destruct (adj_nonempty _ Hnb _ s Hs) as [v Hv].
  by destruct (build_neighbors_sentinel_free _ _ _ _ Hfirst Hbuild (-1) v); [exists s|].
Qed.

Lemma sample_first_labels_real : first_labels_real 3 sample_lims sample_labels.
Proof.
  intros qi start Hqi Hstart.
  destruct qi as [|[|[|qi]]]; [..|lia]; simpl in Hstart;
    injection Hstart as <-; done.
Qed.

Lemma collect_groups_sentinel_free_witness :
  ∃ groups,
    collect_groups order_asc 3 sample_lims sample_labels = Ok groups ∧
    ∀ comp, comp ∈ groups → -1 ∉ comp.
Proof.
  apply (collect_groups_sentinel_free order_asc 3 sample_lims sample_labels
           sample_neighbors order_asc_perm sample_first_labels_real).
  vm_compute. reflexivity.
Defined.

(** X9. When no query has a neighbour but itself, the adjacency structure
    is empty and there is no group. *)
Theorem collect_groups_self_only order n lims labels neighbors :
  self_only n lims labels →
  build_neighbors n lims labels = Ok neighbors →
  neighbors = [] ∧ collect_groups order n lims labels = Ok [].
Proof.
  intros Hself Hbuild.
  assert (neighbors = []) as ->; [|split; [done|]].
  - destruct neighbors as [|[u s] nb]; [done|]. exfalso.
    pose proof (build_neighbors_adj_ok _ _ _ _ Hbuild) as Hnb.
    destruct (adj_nonempty _ Hnb u s) as [v Hv]; [simpl; by rewrite decide_True|].
    assert (edge ((u, s) :: nb) u v) as Hedge
      by (exists s; simpl; by rewrite decide_True).
    apply (build_neighbors_edge _ _ _ _ u v Hbuild) in Hedge
      as (qi & Hqi & start & stop & qid & jid & ? & ? & _ & ? & ? & Hne1 & Hne2 & _).
    destruct (Hself qi start stop qid jid) as [?|?]; done.
  - unfold collect_groups. rewrite Hbuild. reflexivity.
Qed.

Lemma sample_self_only : self_only 2 [0; 1; 3]%nat [7; 8; -1].
Proof.
  intros qi start stop qid jid Hqi Hstart Hstop Hqid Hjid.
  destruct qi as [|[|qi]]; [..|lia]; simpl in Hstart, Hstop;
    injection Hstart as <-; injection Hstop as <-;
    injection Hqid as <-; vm_compute in Hjid;
    repeat (apply elem_of_cons in Hjid as [-> | Hjid]; [auto|]);
    by apply elem_of_nil in Hjid.
Qed.

Lemma collect_groups_self_only_witness :
  [] = @nil (Z * gset Z) ∧ collect_groups order_asc 2 [0; 1; 3]%nat [7; 8; -1] = Ok [].
Proof.
  apply (collect_groups_self_only order_asc 2 [0; 1; 3]%nat [7; 8; -1] []
           sample_self_only).
  vm_compute. reflexivity.
Defined.

(** ** [write_dedup_jsonl] *)

Lemma elem_of_mapped_entries lookup group e :
  e ∈ mapped_entries lookup group ↔ ∃ i, i ∈ group ∧ od_get lookup i = Some e.
Proof. unfold mapped_entries. apply list_elem_of_omap. Qed.

Lemma elem_of_file_entries lookup group fid e :
  e ∈ file_entries lookup group fid ↔
  e ∈ mapped_entries lookup group ∧ file_id e = fid.
Proof. unfold file_entries. rewrite list_elem_of_filter. tauto. Qed.

Lemma elem_of_cross_pairs clips_a clips_b p :
  p ∈ cross_pairs clips_a clips_b ↔
  ∃ ca cb, ca ∈ clips_a ∧ cb ∈ clips_b ∧ p = clip_pair ca cb.
Proof.
  unfold cross_pairs. rewrite list_elem_of_bind. split.
  - intros (ca & (cb & -> & ?)%list_elem_of_fmap & ?). by exists ca, cb.
  - intros (ca & cb & ? & ? & ->). exists ca. split; [|done].
    apply list_elem_of_fmap. by exists cb.
Qed.

Lemma od_get_values {K V : Type} `{EqDecision K} (d : list (K * V)) k v :
  od_get d k = Some v → v ∈ od_values d.
Proof.
  intros Hget%od_get_elem_of. apply list_elem_of_fmap. by exists (k, v).
Qed.

(** The sub-records under a key, by where they come from. *)
Lemma elem_of_contributions lookup groups a b p :
  p ∈ concat ((λ g, contribution lookup g (a, b)) <$> groups) ↔
  ∃ g ca cb, g ∈ groups ∧ meets_before lookup g a b ∧
    ca ∈ file_entries lookup g a ∧ cb ∈ file_entries lookup g b ∧
    p = clip_pair ca cb.
Proof.
  rewrite elem_of_concat. split.
  - intros (l & (g & -> & Hg)%list_elem_of_fmap & Hp).
    rewrite contribution_spec in Hp. case_decide; [|by apply elem_of_nil in Hp].
    apply elem_of_cross_pairs in Hp as (ca & cb & ? & ? & ->).
    by exists g, ca, cb.
  - intros (g & ca & cb & Hg & Hmeets & Hca & Hcb & ->).
    exists (contribution lookup g (a, b)). split.
    + apply list_elem_of_fmap. by exists g.
    + rewrite contribution_spec, decide_True by done.
      apply elem_of_cross_pairs. by exists ca, cb.
Qed.

(** The records and the keys of the pair map correspond. *)
Lemma record_of_output groups lookup records r :
  Forall2 (λ item r, finalize lookup item = Ok r) (accumulate groups lookup) records →
  r ∈ records →
  record_key r ∈ od_keys (accumulate groups lookup) ∧
  finalized lookup (record_key r, clips r) r ∧
  clips r = concat ((λ g, contribution lookup g (record_key r)) <$> groups) ∧
  clips r ≠ [].
Proof.
  intros Hall [i Hi]%list_elem_of_lookup.
  destruct (Forall2_lookup_r _ _ _ _ _ Hall Hi) as ([key clip_pairs] & Hitem & Hfin).
  apply finalize_spec in Hfin as Hfinal.
  destruct Hfinal as (first & ? & Hkey & ? & ? & ? & ? & Hclips). simpl in *.
  apply list_elem_of_lookup_2 in Hitem.
  pose proof (accumulate_item _ _ _ _ Hitem) as [Hcat Hne].
  rewrite Hkey, Hclips. split_and!; [|by apply finalize_spec|done|done].
  apply list_elem_of_fmap. by exists (key, clip_pairs).
Qed.

Lemma output_of_key groups lookup records key :
  Forall2 (λ item r, finalize lookup item = Ok r) (accumulate groups lookup) records →
  key ∈ od_keys (accumulate groups lookup) →
  ∃ r, r ∈ records ∧ record_key r = key.
Proof.
  intros Hall Hkey. rewrite <-(records_keys _ _ _ Hall) in Hkey.
  apply list_elem_of_fmap in Hkey as (r & -> & ?). eauto.
Qed.

Lemma file_pairs_neq (l : list Z) a b : NoDup l → (a, b) ∈ file_pairs l → a ≠ b.
Proof.
  intros Hnd (i & j & Hij & Hi & Hj)%elem_of_file_pairs ->.
  pose proof (NoDup_lookup _ _ _ _ Hnd Hi Hj). lia.
Qed.

Lemma file_pairs_total (l : list Z) a b :
  a ∈ l → b ∈ l → a ≠ b → (a, b) ∈ file_pairs l ∨ (b, a) ∈ file_pairs l.
Proof.
  intros [i Hi]%list_elem_of_lookup [j Hj]%list_elem_of_lookup Hne.
  destruct (decide (i < j)%nat); [left|right]; apply elem_of_file_pairs.
  - by exists i, j.
  - exists j, i. split_and!; [|done|done].
    assert (i ≠ j) by (intros ->; congruence). lia.
Qed.

Lemma mapped_entries_present lookup group :
  mapped_entries lookup (present lookup group) = mapped_entries lookup group.
Proof.
  unfold mapped_entries, present. induction group as [|i group IH]; [done|].
  rewrite filter_cons. csimpl.
  destruct (od_get lookup i) as [e|] eqn:Hget.
  - rewrite decide_True by eauto. csimpl. by rewrite Hget, IH.
  - rewrite decide_False by (by intros [? ?]). done.
Qed.

Lemma present_length lookup group :
  length (present lookup group) = length (mapped_entries lookup group).
Proof.
  unfold mapped_entries, present. induction group as [|i group IH]; [done|].
  rewrite filter_cons. csimpl.
  destruct (od_get lookup i) as [e|] eqn:Hget.
  - rewrite decide_True by eauto. simpl. by rewrite IH.
  - rewrite decide_False by (by intros [? ?]). done.
Qed.

(** X10. Ids that are not keys of the lookup table do not count: the
    output is the same when they are removed from the groups first. *)
Theorem write_dedup_jsonl_ignores_absent groups lookup :
  write_dedup_jsonl (present lookup <$> groups) lookup =
  write_dedup_jsonl groups lookup.
Proof.
  unfold write_dedup_jsonl, accumulate. f_equal.
  generalize (@nil ((Z * Z) * list ClipPair)).
  induction groups as [|g groups IH]; intros pm; [done|].
  csimpl. rewrite <-IH. f_equal. clear IH.
  unfold add_group. rewrite mapped_entries_present, present_length.
  pose proof (mapped_entries_length lookup g).
  repeat case_decide; try done; lia.
Qed.

(** X11. The writer returns, and its records have pairwise different keys;
    every record is about two different files and has at least one clip
    pair. *)
Theorem write_dedup_jsonl_records groups lookup :
  ∃ records,
    write_dedup_jsonl groups lookup = Ok records ∧
    NoDup (record_key <$> records) ∧
    ∀ r, r ∈ records →
      original_file_id r ≠ duplicate_file_id r ∧ clips r ≠ [].
Proof.
  destruct (write_dedup_jsonl_spec groups lookup) as (records & Hrun & Hall).
  exists records. split_and!; [done| |].
  - rewrite (records_keys _ _ _ Hall). apply accumulate_keys_NoDup.
  - intros r Hr.
    destruct (record_of_output _ _ _ _ Hall Hr) as (Hkey & _ & _ & Hne).
    split; [|done].
    apply accumulate_key in Hkey as (g & _ & Hg).
    destruct (record_key r) as [a b] eqn:Hk.
    apply meets_before_contribution in Hg.
    injection Hk as <- <-.
    eapply file_pairs_neq; [|exact Hg]. apply partition_keys_NoDup.
Qed.

(** X12. Every clip pair of a record joins two entries of one group: both
    are lookup records of ids of that group, the original one of the
    record's original file and the duplicate one of its duplicate file, and
    the group meets the original file first. *)
Theorem write_dedup_jsonl_clip_origin groups lookup records r p :
  write_dedup_jsonl groups lookup = Ok records →
  r ∈ records → p ∈ clips r →
  ∃ g i j ca cb,
    g ∈ groups ∧ i ∈ g ∧ j ∈ g ∧
    od_get lookup i = Some ca ∧ od_get lookup j = Some cb ∧
    file_id ca = original_file_id r ∧ file_id cb = duplicate_file_id r ∧
    meets_before lookup g (original_file_id r) (duplicate_file_id r) ∧
    p = clip_pair ca cb.
Proof.
  intros Hrun Hr Hp.
  destruct (write_dedup_jsonl_spec groups lookup) as (records' & Hrun' & Hall).
  assert (records' = records) as -> by congruence.
  destruct (record_of_output _ _ _ _ Hall Hr) as (_ & _ & Hclips & _).
  rewrite Hclips in Hp. unfold record_key in Hp.
  apply elem_of_contributions in Hp
    as (g & ca & cb & Hg & Hmeets & [Hca ?]%elem_of_file_entries
          & [Hcb ?]%elem_of_file_entries & ->).
  apply elem_of_mapped_entries in Hca as (i & ? & ?), Hcb as (j & ? & ?).
  exists g, i, j, ca, cb. split_and!; done.
Qed.

Lemma write_dedup_jsonl_clip_origin_witness :
  ∃ g i j ca cb,
    g ∈ [[10; 11; 20]] ∧ i ∈ g ∧ j ∈ g ∧
    od_get sample_lookup i = Some ca ∧ od_get sample_lookup j = Some cb ∧
    file_id ca = original_file_id sample_record ∧
    file_id cb = duplicate_file_id sample_record ∧
    meets_before sample_lookup g (original_file_id sample_record)
      (duplicate_file_id sample_record) ∧
    clip_pair (sample_clip 11 1 1 "a.mp4") (sample_clip 20 2 0 "b.mp4") =
      clip_pair ca cb.
Proof.
  apply (write_dedup_jsonl_clip_origin [[10; 11; 20]] sample_lookup
           [sample_record] sample_record).
  - vm_compute. reflexivity.
  - left.
  - right. left.
Defined.

(** X13. Two entries of one group that belong to different files are
    always reported: the output has a record for the two files, in one of
    the two labellings, that holds their clip pair. *)
Theorem write_dedup_jsonl_complete groups lookup g i j ca cb :
  g ∈ groups → i ∈ g → j ∈ g →
  od_get lookup i = Some ca → od_get lookup j = Some cb →
  file_id ca ≠ file_id cb →
  ∃ records r,
    write_dedup_jsonl groups lookup = Ok records ∧ r ∈ records ∧
    ((record_key r = (file_id ca, file_id cb) ∧ clip_pair ca cb ∈ clips r) ∨
     (record_key r = (file_id cb, file_id ca) ∧ clip_pair cb ca ∈ clips r)).
Proof.
  intros Hg Hi Hj Hca Hcb Hne.
  destruct (write_dedup_jsonl_spec groups lookup) as (records & Hrun & Hall).
  assert (ca ∈ mapped_entries lookup g) as Hma by (apply elem_of_mapped_entries; eauto).
  assert (cb ∈ mapped_entries lookup g) as Hmb by (apply elem_of_mapped_entries; eauto).
  assert (∀ a b ea eb, ea ∈ mapped_entries lookup g → eb ∈ mapped_entries lookup g →
            file_id ea = a → file_id eb = b → meets_before lookup g a b →
            ∃ r, r ∈ records ∧ record_key r = (a, b) ∧ clip_pair ea eb ∈ clips r)
    as Hrec.
  { intros a b ea eb Hea Heb Ha Hb Hmeets.
    destruct (output_of_key _ _ _ (a, b) Hall) as (r & Hr & Hkey).
    { apply accumulate_key. exists g. split; [done|].
      by apply meets_before_contribution. }
    exists r. split_and!; [done|done|].
    destruct (record_of_output _ _ _ _ Hall Hr) as (_ & _ & -> & _).
    rewrite Hkey. apply elem_of_contributions.
    exists g, ea, eb. split_and!; [done|done| | |done];
      by apply elem_of_file_entries. }
  destruct (file_pairs_total (first_seen lookup g) (file_id ca) (file_id cb))
    as [Hab|Hba]; [apply partition_keys; eauto..|done| |].
  - destruct (Hrec _ _ ca cb Hma Hmb eq_refl eq_refl Hab) as (r & ? & ? & ?).
    exists records, r. split_and!; [done|done|by left].
  - destruct (Hrec _ _ cb ca Hmb Hma eq_refl eq_refl Hba) as (r & ? & ? & ?).
    exists records, r. split_and!; [done|done|by right].
Qed.

Lemma write_dedup_jsonl_complete_witness :
  ∃ records r,
    write_dedup_jsonl [[10; 20]; [21; 11]] sample_lookup = Ok records ∧
    r ∈ records ∧
    ((record_key r = (file_id (sample_clip 21 2 1 "b.mp4"),
                      file_id (sample_clip 11 1 1 "a.mp4")) ∧
      clip_pair (sample_clip 21 2 1 "b.mp4") (sample_clip 11 1 1 "a.mp4") ∈ clips r) ∨
     (record_key r = (file_id (sample_clip 11 1 1 "a.mp4"),
                      file_id (sample_clip 21 2 1 "b.mp4")) ∧
      clip_pair (sample_clip 11 1 1 "a.mp4") (sample_clip 21 2 1 "b.mp4") ∈ clips r)).
Proof.
  apply (write_dedup_jsonl_complete [[10; 20]; [21; 11]] sample_lookup [21; 11] 21 11).
  - right; left.
  - left.
  - right; left.
  - reflexivity.
  - reflexivity.
  - discriminate.
Defined.

(** X14. The fallback [0.0] is never used on the output: each duration of
    a record is the duration of a lookup value of the file of that side,
    and each file name is the file name of such a value. *)
Theorem write_dedup_jsonl_fields_from_lookup groups lookup records r :
  write_dedup_jsonl groups lookup = Ok records → r ∈ records →
  (∃ e, e ∈ od_values lookup ∧ file_id e = original_file_id r ∧
        original_duration r = duration e) ∧
  (∃ e, e ∈ od_values lookup ∧ file_id e = duplicate_file_id r ∧
        duplicate_duration r = duration e) ∧
  (∃ e, e ∈ od_values lookup ∧ file_id e = original_file_id r ∧
        original_file_name r = file_name e) ∧
  (∃ e, e ∈ od_values lookup ∧ file_id e = duplicate_file_id r ∧
        duplicate_file_name r = file_name e).
Proof.
  intros Hrun Hr.
  destruct (write_dedup_jsonl_spec groups lookup) as (records' & Hrun' & Hall).
  assert (records' = records) as -> by congruence.
  destruct (record_of_output _ _ _ _ Hall Hr) as (_ & Hfin & Hclips & _).
  destruct Hfin as (first & Hfirst & _ & Hna & Hnb & Hda & Hdb & _). simpl in *.
  apply list_elem_of_lookup_2 in Hfirst. rewrite Hclips in Hfirst.
  unfold record_key in Hfirst.
  apply elem_of_contributions in Hfirst
    as (g & ca & cb & _ & _ & [Hca Hfa]%elem_of_file_entries
          & [Hcb Hfb]%elem_of_file_entries & ->).
  apply elem_of_mapped_entries in Hca as (i & _ & Hi%od_get_values).
  apply elem_of_mapped_entries in Hcb as (j & _ & Hj%od_get_values).
  assert (∀ fid e0 d, e0 ∈ od_values lookup → file_id e0 = fid →
            first_duration lookup fid d →
            ∃ e, e ∈ od_values lookup ∧ file_id e = fid ∧ d = duration e) as Hdur.
  { intros fid e0 d He0 Hf0 [(before & e & after & Hsplit & _ & ? & ?)|[Hnone _]].
    - exists e. split_and!; [|done|done]. rewrite Hsplit.
      apply elem_of_app. right. left.
    - by destruct (Hnone e0 He0). }
  split_and!.
  - exact (Hdur _ ca _ Hi Hfa Hda).
  - exact (Hdur _ cb _ Hj Hfb Hdb).
  - exists ca. split_and!; [exact Hi|exact Hfa|exact Hna].
  - exists cb. split_and!; [exact Hj|exact Hfb|exact Hnb].
Qed.

Lemma write_dedup_jsonl_fields_from_lookup_witness :
  (∃ e, e ∈ od_values sample_lookup ∧ file_id e = original_file_id sample_record ∧
        original_duration sample_record = duration e) ∧
  (∃ e, e ∈ od_values sample_lookup ∧ file_id e = duplicate_file_id sample_record ∧
        duplicate_duration sample_record = duration e) ∧
  (∃ e, e ∈ od_values sample_lookup ∧ file_id e = original_file_id sample_record ∧
        original_file_name sample_record = file_name e) ∧
  (∃ e, e ∈ od_values sample_lookup ∧ file_id e = duplicate_file_id sample_record ∧
        duplicate_file_name sample_record = file_name e).
Proof.
  apply (write_dedup_jsonl_fields_from_lookup [[10; 11; 20]] sample_lookup
           [sample_record] sample_record).
  - vm_compute. reflexivity.
  - left.
Defined.

Lemma od_set_lookup {K V : Type} `{EqDecision K} (d : list (K * V)) i k v k' v' :
  NoDup (od_keys d) → d !! i = Some (k, v) →
  od_set d k' v' !! i = Some (k, if decide (k' = k) then v' else v).
Proof.
  unfold od_keys. revert i. induction d as [|[k0 v0] d IH]; intros i; csimpl; [done|].
  intros [Hk0 Hnd]%NoDup_cons Hi.
  destruct (decide (k' = k0)) as [->|Hne].
  - destruct i as [|i]; simpl in *.
    + injection Hi as <- <-. by rewrite decide_True.
    + rewrite Hi, decide_False; [done|]. intros <-. apply Hk0.
      apply list_elem_of_fmap. exists (k0, v). split; [done|].
      by eapply list_elem_of_lookup_2.
  - destruct i as [|i]; simpl in *.
    + injection Hi as <- <-. by rewrite decide_False.
    + by apply IH.
Qed.

(** Appending keeps every item in its place and extends its list. *)
Lemma append_all_lookup {K A : Type} `{EqDecision K}
    (d : list (K * list A)) (items : list (K * A)) i k l :
  NoDup (od_keys d) → d !! i = Some (k, l) →
  append_all d items !! i = Some (k, l ++ under k items).
Proof.
  revert d l. induction items as [|[k' x] items IH]; intros d l Hnd Hi.
  - unfold under. simpl. by rewrite app_nil_r.
  - change (append_all d ((k', x) :: items))
      with (append_all (od_append d k' x) items).
    erewrite IH; [| by apply od_keys_set_NoDup | by apply od_set_lookup].
    f_equal. f_equal. unfold under. rewrite filter_cons. simpl.
    destruct (decide (k' = k)) as [->|Hne]; csimpl; [|done].
    rewrite <-app_assoc. simpl. f_equal. unfold entries_of.
    erewrite od_get_NoDup; [done|done|]. by eapply list_elem_of_lookup_2.
Qed.

Lemma foldl_add_group lookup pm groups :
  foldl (add_group lookup) pm groups =
  append_all pm (g ← groups; emissions lookup g).
Proof.
  revert pm. induction groups as [|g groups IH]; intros pm; [done|].
  csimpl. by rewrite append_all_app, IH, add_group_append_all.
Qed.

Lemma finalize_extend lookup key clip_pairs more r :
  finalize lookup (key, clip_pairs) = Ok r →
  finalize lookup (key, clip_pairs ++ more) =
  Ok {| original_file_id := original_file_id r;
        original_file_name := original_file_name r;
        original_duration := original_duration r;
        duplicate_file_id := duplicate_file_id r;
        duplicate_file_name := duplicate_file_name r;
        duplicate_duration := duplicate_duration r;
        clips := clips r ++ more |}.
Proof.
  destruct key as [a b], clip_pairs as [|first rest]; [done|].
  simpl. by intros [= <-].
Qed.

(** X15. More groups only add to what is there: when groups are appended
    to the list, every record of the shorter run is in the longer run at
    the same place, with the same key, names and durations, and with its
    clips followed by what the new groups contribute under its key. *)
Theorem write_dedup_jsonl_extends groups more lookup records i r :
  write_dedup_jsonl groups lookup = Ok records →
  records !! i = Some r →
  ∃ records',
    write_dedup_jsonl (groups ++ more) lookup = Ok records' ∧
    records' !! i =
      Some {| original_file_id := original_file_id r;
              original_file_name := original_file_name r;
              original_duration := original_duration r;
              duplicate_file_id := duplicate_file_id r;
              duplicate_file_name := duplicate_file_name r;
              duplicate_duration := duplicate_duration r;
              clips := clips r ++
                concat ((λ g, contribution lookup g (record_key r)) <$> more) |}.
Proof.
  intros Hrun Hi.
  destruct (write_dedup_jsonl_spec groups lookup) as (records0 & Hrun0 & Hall).
  assert (records0 = records) as -> by congruence.
  destruct (write_dedup_jsonl_spec (groups ++ more) lookup) as (records' & Hrun' & Hall').
  exists records'. split; [done|].
  destruct (Forall2_lookup_r _ _ _ _ _ Hall Hi) as ([key clip_pairs] & Hitem & Hfin).
  assert (accumulate (groups ++ more) lookup !! i =
          Some (key, clip_pairs ++ under key (g ← more; emissions lookup g))) as Hitem'.
  { unfold accumulate. rewrite foldl_app, foldl_add_group.
    apply append_all_lookup; [apply accumulate_keys_NoDup|done]. }
  destruct (Forall2_lookup_l _ _ _ _ _ Hall' Hitem') as (r' & Hr' & Hfin').
  rewrite Hr'. f_equal.
  rewrite (finalize_extend _ _ _ _ _ Hfin) in Hfin'. injection Hfin' as <-.
  by rewrite under_bind_emissions, (finalize_key _ _ _ Hfin).
Qed.

Lemma write_dedup_jsonl_extends_witness :
  ∃ records',
    write_dedup_jsonl ([[10; 11; 20]] ++ [[21; 11]; [10; 21]]) sample_lookup = Ok records' ∧
    records' !! 0%nat =
      Some {| original_file_id := original_file_id sample_record;
              original_file_name := original_file_name sample_record;
              original_duration := original_duration sample_record;
              duplicate_file_id := duplicate_file_id sample_record;
              duplicate_file_name := duplicate_file_name sample_record;
              duplicate_duration := duplicate_duration sample_record;
              clips := clips sample_record ++
                concat ((λ g, contribution sample_lookup g (record_key sample_record))
                          <$> [[21; 11]; [10; 21]]) |}.
Proof.
  apply (write_dedup_jsonl_extends [[10; 11; 20]] [[21; 11]; [10; 21]]
           sample_lookup [sample_record] 0 sample_record).
  - vm_compute. reflexivity.
  - reflexivity.
Defined.

(** ** [update_duplicate_flags] *)

Lemma od_set_set {K V : Type} `{EqDecision K} (d : list (K * V)) k v v' :
  od_set (od_set d k v) k v' = od_set d k v'.
Proof.
  induction d as [|[k0 v0] d IH]; simpl.
  - by rewrite decide_True.
  - destruct (decide (k = k0)) as [->|Hne]; simpl.
    + by rewrite decide_True.
    + by rewrite decide_False, IH.
Qed.

Lemma update_entry_compose updates1 updates2 entry entry1 :
  update_entry updates1 entry = Ok entry1 →
  update_entry updates2 entry1 = update_entry (updates2 ∪ updates1) entry.
Proof.
  destruct entry as [| | | | | |fields]; try done.
  unfold update_entry at 1. fold (file_id_of fields).
  destruct (key_of (file_id_of fields)) as [k|] eqn:Hkey; [|done]. simpl.
  assert (∀ flag, file_id_of (od_set fields "duplicate" (JBool flag)) =
                  file_id_of fields) as Hsame.
  { intros flag. unfold file_id_of. by rewrite od_get_set_ne. }
  destruct k as [k|]; simpl.
  - destruct (updates1 !! k) as [flag1|] eqn:H1; intros [= <-];
      unfold update_entry; fold (file_id_of fields);
      [fold (file_id_of (od_set fields "duplicate" (JBool flag1))); rewrite Hsame|];
      rewrite Hkey; simpl.
    + destruct (updates2 !! k) as [flag2|] eqn:H2.
      * rewrite (lookup_union_Some_l _ _ _ _ H2). by rewrite od_set_set.
      * rewrite lookup_union_r, H1 by done. done.
    + destruct (updates2 !! k) as [flag2|] eqn:H2.
      * by rewrite (lookup_union_Some_l _ _ _ _ H2).
      * by rewrite lookup_union_r, H1 by done.
  - intros [= <-]. unfold update_entry. fold (file_id_of fields). by rewrite Hkey.
Qed.

Lemma each_update_compose updates1 updates2 entries entries1 :
  each (update_entry updates1) entries = Ok entries1 →
  each (update_entry updates2) entries1 =
  each (update_entry (updates2 ∪ updates1)) entries.
Proof.
  revert entries1. induction entries as [|entry entries IH]; intros entries1; simpl.
  - by intros [= <-].
  - destruct (update_entry updates1 entry) as [entry1|] eqn:Hentry; [|done]. simpl.
    destruct (each (update_entry updates1) entries) as [rest|]; [|done]. simpl.
    intros [= <-]. simpl.
    by rewrite (update_entry_compose _ _ _ _ Hentry), (IH _ eq_refl).
Qed.

Lemma update_entry_empty entry : updatable entry → update_entry ∅ entry = Ok entry.
Proof.
  intros (fields & k & -> & Hkey). unfold update_entry. fold (file_id_of fields).
  rewrite Hkey. simpl. destruct k as [k|]; simpl; [|done].
  by rewrite lookup_empty.
Qed.

Lemma each_update_empty entries :
  Forall updatable entries → each (update_entry ∅) entries = Ok entries.
Proof.
  induction 1 as [|entry entries Hentry _ IH]; simpl; [done|].
  by rewrite (update_entry_empty _ Hentry), IH.
Qed.

Lemma load_entries_reads_back json_loads json_dumps blank entries :
  Forall (reads_back json_loads json_dumps blank) entries →
  load_entries json_loads blank (line_of json_dumps <$> entries) = Ok entries.
Proof.
  unfold line_of.
  induction 1 as [|entry entries [Hblank Hload] _ IH]; csimpl; [done|].
  by rewrite Hblank, Hload, IH.
Qed.

Lemma load_entries_filter json_loads blank file :
  load_entries json_loads blank (filter (λ line, blank line = false) file) =
  load_entries json_loads blank file.
Proof.
  induction file as [|line file IH]; [done|].
  rewrite filter_cons. simpl. destruct (blank line) eqn:Hblank.
  - by rewrite decide_False.
  - rewrite decide_True by done. simpl. by rewrite Hblank, IH.
Qed.

Lemma load_entries_length json_loads blank file entries :
  load_entries json_loads blank file = Ok entries →
  length entries = length (filter (λ line, blank line = false) file).
Proof.
  revert entries. induction file as [|line file IH]; intros entries; simpl.
  - by intros [= <-].
  - rewrite filter_cons. destruct (blank line) eqn:Hblank.
    + rewrite decide_False by done. apply IH.
    + rewrite decide_True by done.
      destruct (json_loads line); [|done].
      destruct (load_entries json_loads blank file); [|done]. simpl.
      intros [= <-]. simpl. f_equal. by apply IH.
Qed.

(** X16. With an empty mapping the call still decodes, checks and rewrites:
    when every decoded entry is an object with a hashable [file_id] and the
    encoder of the file accepts the line of every entry, it returns the
    decoded entries as they are and the file holds their serialisations,
    one per line, blank lines gone. *)
Theorem update_duplicate_flags_empty json_loads json_dumps blank encodes file entries :
  load_entries json_loads blank file = Ok entries →
  Forall updatable entries →
  Forall (encodable json_dumps encodes) entries →
  update_duplicate_flags json_loads json_dumps blank encodes file ∅ =
    (Ok entries, line_of json_dumps <$> entries).
Proof.
  intros Hload Hall Henc. unfold update_duplicate_flags. rewrite Hload. simpl.
  by rewrite (each_update_empty _ Hall), (write_entries_Ok _ _ _ Henc).
Qed.

Lemma update_duplicate_flags_empty_witness :
  update_duplicate_flags sample_loads sample_dumps utf8_blank utf8_encodes
    [sample_line1; nbsp_line; sample_line2] ∅ =
    (Ok [sample_entry1; sample_entry2],
     line_of sample_dumps <$> [sample_entry1; sample_entry2]).
Proof.
  apply (update_duplicate_flags_empty sample_loads sample_dumps utf8_blank
           utf8_encodes [sample_line1; nbsp_line; sample_line2]
           [sample_entry1; sample_entry2]).
  - vm_compute. reflexivity.
  - repeat constructor; eexists _, _; (split; [reflexivity|vm_compute; reflexivity]).
  - repeat constructor; vm_compute; reflexivity.
Defined.

(** X17. Two updates in a row amount to one: when the first call returns
    and its lines read back, a second call on the file it wrote, with a
    second mapping, ends as one call on the first file with the second
    mapping laid over the first. *)
Theorem update_duplicate_flags_twice json_loads json_dumps blank encodes file
    updates1 updates2 entries1 file1 :
  update_duplicate_flags json_loads json_dumps blank encodes file updates1 =
    (Ok entries1, file1) →
  Forall (reads_back json_loads json_dumps blank) entries1 →
  update_duplicate_flags json_loads json_dumps blank encodes file1 updates2 =
  update_duplicate_flags json_loads json_dumps blank encodes file (updates2 ∪ updates1).
Proof.
  intros (entries & Hload & Heach & _ & ->)%update_duplicate_flags_Ok Hback.
  unfold update_duplicate_flags.
  rewrite (load_entries_reads_back _ _ _ _ Hback), Hload. simpl.
  rewrite (each_update_compose _ _ _ _ Heach).
  destruct (each_update_entry (updates2 ∪ updates1) entries)
    as [[_ (entries2 & -> & _)]|[Hno _]]; [done|].
  destruct (each_update_entry updates1 entries) as [[Hall _]|[_ (e & He & _)]];
    [done|congruence].
Qed.

Lemma flagged_reads_back :
  Forall (reads_back (loads_of [sample_entry1; flagged_entry1]) sample_dumps utf8_blank)
         [flagged_entry1].
Proof. repeat constructor; vm_compute; reflexivity. Qed.

Lemma update_duplicate_flags_twice_witness :
  update_duplicate_flags (loads_of [sample_entry1; flagged_entry1]) sample_dumps
    utf8_blank utf8_encodes [line_of sample_dumps flagged_entry1] {[1 := false]} =
  update_duplicate_flags (loads_of [sample_entry1; flagged_entry1]) sample_dumps
    utf8_blank utf8_encodes [sample_line1] ({[1 := false]} ∪ {[1 := true]}).
Proof.
  apply (update_duplicate_flags_twice (loads_of [sample_entry1; flagged_entry1])
           sample_dumps utf8_blank utf8_encodes [sample_line1]
           {[1 := true]} {[1 := false]} [flagged_entry1]).
  - vm_compute. reflexivity.
  - exact flagged_reads_back.
Defined.

(** X18. The update is idempotent: when the call returns and its lines read
    back, the same call on the file it wrote returns the same entries and
    writes the same file. *)
Theorem update_duplicate_flags_idempotent json_loads json_dumps blank encodes file
    updates entries1 file1 :
  update_duplicate_flags json_loads json_dumps blank encodes file updates =
    (Ok entries1, file1) →
  Forall (reads_back json_loads json_dumps blank) entries1 →
  update_duplicate_flags json_loads json_dumps blank encodes file1 updates =
    (Ok entries1, file1).
Proof.
  intros (entries & Hload & Heach & Henc & ->)%update_duplicate_flags_Ok Hback.
  unfold update_duplicate_flags.
  rewrite (load_entries_reads_back _ _ _ _ Hback). simpl.
  rewrite (each_update_compose _ _ _ _ Heach), (idemp (∪) updates), Heach.
  by rewrite (write_entries_Ok _ _ _ Henc).
Qed.

Lemma update_duplicate_flags_idempotent_witness :
  update_duplicate_flags (loads_of [sample_entry1; flagged_entry1]) sample_dumps
    utf8_blank utf8_encodes [line_of sample_dumps flagged_entry1] {[1 := true]} =
  (Ok [flagged_entry1], [line_of sample_dumps flagged_entry1]).
Proof.
  apply (update_duplicate_flags_idempotent (loads_of [sample_entry1; flagged_entry1])
           sample_dumps utf8_blank utf8_encodes [sample_line1] {[1 := true]}
           [flagged_entry1]).
  - vm_compute. reflexivity.
  - exact flagged_reads_back.
Defined.

(** X19. Blank lines, as [line.strip()] finds them, do not count and do not
    survive: the call returns or raises the same with and without them.
    When it gets as far as writing, that is when it returns or the encoder
    refuses a line, it leaves the same file; when it returns, the file has
    one line per line of the input that is not blank. When it raises
    before, each file keeps its lines. *)
Theorem update_duplicate_flags_blank_lines json_loads json_dumps blank encodes
    file updates :
  let run := update_duplicate_flags json_loads json_dumps blank encodes in
  let kept := filter (λ line, blank line = false) file in
  (run kept updates).1 = (run file updates).1 ∧
  match (run file updates).1 with
  | Ok _ =>
      (run kept updates).2 = (run file updates).2 ∧
      length (run file updates).2 = length kept
  | Raise UnicodeEncodeError => (run kept updates).2 = (run file updates).2
  | Raise _ => (run kept updates).2 = kept ∧ (run file updates).2 = file
  end.
Proof.
  cbv zeta. unfold update_duplicate_flags. rewrite load_entries_filter.
  destruct (load_entries json_loads blank file) as [entries|e] eqn:Hload; simpl.
  - destruct (each_update_entry updates entries)
      as [[_ (entries' & Heach & _)]|[_ (e & -> & He)]]; simpl.
    + rewrite Heach.
      destruct (write_entries_cases json_dumps encodes entries')
        as [[_ ->]|(before & bad & after & -> & _ & _ & ->)]; simpl.
      * split; [done|]. split; [done|].
        rewrite length_fmap, <-(load_entries_length _ _ _ _ Hload).
        by apply each_Forall2, Forall2_length in Heach.
      * done.
    + by destruct He as [-> | ->].
  - by rewrite (load_entries_raise_only _ _ _ _ Hload).
Qed.

(** X20. An entry that cannot be updated stops the call before anything is
    written, whatever the mapping: a decoded line that is not an object
    raises [AttributeError], an object whose [file_id] is a list or an
    object raises [TypeError], when the entries before it are fine. *)
Theorem update_duplicate_flags_bad_entry json_loads json_dumps blank encodes file
    updates good bad rest :
  load_entries json_loads blank file = Ok (good ++ bad :: rest) →
  Forall updatable good →
  ((∀ fields, bad ≠ JObj fields) →
   update_duplicate_flags json_loads json_dumps blank encodes file updates =
     (Raise AttributeError, file)) ∧
  (∀ fields, bad = JObj fields →
     (∃ items, file_id_of fields = JArr items) ∨
     (∃ inner, file_id_of fields = JObj inner) →
   update_duplicate_flags json_loads json_dumps blank encodes file updates =
     (Raise TypeError, file)).
Proof.
  intros Hload Hgood.
  assert (∀ e, update_entry updates bad = Raise e →
               update_duplicate_flags json_loads json_dumps blank encodes file updates =
               (Raise e, file)) as Hstop.
  { intros e Hbad. unfold update_duplicate_flags. rewrite Hload. simpl.
    assert (each (update_entry updates) (good ++ bad :: rest) = Raise e) as ->; [|done].
    clear Hload. induction Hgood as [|entry good Hentry _ IH]; simpl.
    - by rewrite Hbad.
    - destruct (update_entry_cases updates entry)
        as [[_ (entry' & -> & _)]|[Hno _]]; [|done]. simpl. by rewrite IH. }
  split.
  - intros Hnot. apply Hstop. destruct bad; try done. by destruct (Hnot fields).
  - intros fields -> Hid. apply Hstop. unfold update_entry. fold (file_id_of fields).
    by destruct Hid as [[items ->]|[inner ->]].
Qed.

Lemma update_duplicate_flags_bad_entry_witness :
  ((∀ fields, number_entry ≠ JObj fields) →
   update_duplicate_flags (loads_of [sample_entry1; number_entry]) sample_dumps
     utf8_blank utf8_encodes
     [sample_line1; line_of sample_dumps number_entry] {[1 := true]} =
     (Raise AttributeError, [sample_line1; line_of sample_dumps number_entry])) ∧
  (∀ fields, number_entry = JObj fields →
     (∃ items, file_id_of fields = JArr items) ∨
     (∃ inner, file_id_of fields = JObj inner) →
   update_duplicate_flags (loads_of [sample_entry1; number_entry]) sample_dumps
     utf8_blank utf8_encodes
     [sample_line1; line_of sample_dumps number_entry] {[1 := true]} =
     (Raise TypeError, [sample_line1; line_of sample_dumps number_entry])).
Proof.
  apply (update_duplicate_flags_bad_entry (loads_of [sample_entry1; number_entry])
           sample_dumps utf8_blank utf8_encodes
           [sample_line1; line_of sample_dumps number_entry]
           {[1 := true]} [sample_entry1] number_entry []).
  - vm_compute. reflexivity.
  - repeat constructor. eexists _, _. split; [reflexivity|vm_compute; reflexivity].
Defined.

(** An object whose [file_id] is a list stops the call with a [TypeError]. *)
Example update_duplicate_flags_list_id :
  update_duplicate_flags (loads_of [list_id_entry]) sample_dumps utf8_blank utf8_encodes
    [line_of sample_dumps list_id_entry] {[1 := true]} =
  (Raise TypeError, [line_of sample_dumps list_id_entry]).
Proof. vm_compute. reflexivity. Qed.

